(** * dbsake.core.mysql.sieve.defer: deferring indexes and constraints

    A shallow embedding of [defer.py] and the properties of its
    functions.  Byte strings are modelled by [string] (a list of 8-bit
    characters); a section's [iterable] is a list of such lines.

    Modelling conventions.
    - [bytes.decode('utf8')] and [str.encode('utf8')] are the identity:
      the dump is UTF-8 text, and every character the column parser
      treats specially is ASCII, so parsing bytes and parsing code
      points give the same fields.
    - The library calls ([re], [csv], [bytes] methods) are embedded as
      executable functions below, each next to the Python behaviour it
      stands for. *)

From Stdlib Require Import String Ascii List ListSet Sorted Bool Arith Lia
  Permutation.
Import ListNotations.
Open Scope list_scope.
Open Scope string_scope.

(** ** Byte strings *)

Module Bytes.

Abbreviation bytes := string (only parsing).

Definition LF : ascii := "010"%char.
Definition CR : ascii := "013"%char.
Definition nl : bytes := String LF "".

(** ASCII whitespace, as stripped by [bytes.strip] and matched by the
    [\s] of a bytes pattern: space, tab, line feed, vertical tab, form
    feed, carriage return. *)
Definition is_space (c : ascii) : bool :=
  match nat_of_ascii c with
  | 32 | 9 | 10 | 11 | 12 | 13 => true
  | _ => false
  end.

Definition is_comma (c : ascii) : bool := Ascii.eqb c ","%char.

(** [b''.join(lines)] *)
Definition join (lines : list bytes) : bytes := String.concat "" lines.

(** [sep.join(lines)] *)
Definition join_with (sep : bytes) (lines : list bytes) : bytes :=
  String.concat sep lines.

(** [s.startswith(p)] *)
Definition startswith (s p : bytes) : bool := String.prefix p s.

(** [s.lstrip(chars)] and [s.rstrip(chars)], the stripped characters
    given by a predicate. *)
Fixpoint lstrip_by (p : ascii -> bool) (s : bytes) : bytes :=
  match s with
  | "" => ""
  | String c s' => if p c then lstrip_by p s' else s
  end.

Fixpoint rstrip_by (p : ascii -> bool) (s : bytes) : bytes :=
  match s with
  | "" => ""
  | String c s' =>
      match rstrip_by p s' with
      | "" => if p c then "" else String c ""
      | r => String c r
      end
  end.

Definition rstrip (s : bytes) : bytes := rstrip_by is_space s.
Definition strip (s : bytes) : bytes := lstrip_by is_space (rstrip s).
Definition rstrip_commas (s : bytes) : bytes := rstrip_by is_comma s.

(** [s.endswith(p)] *)
Fixpoint endswith (s p : bytes) : bool :=
  if String.eqb s p then true
  else match s with
       | "" => false
       | String _ s' => endswith s' p
       end.

(** [sub in s] *)
Fixpoint contains (sub s : bytes) : bool :=
  if String.prefix sub s then true
  else match s with
       | "" => false
       | String _ s' => contains sub s'
       end.

(** [s] reversed, in front of [acc]. *)
Fixpoint rev_string (acc : bytes) (s : bytes) : bytes :=
  match s with
  | "" => acc
  | String c s' => rev_string (String c acc) s'
  end.

(** [s.splitlines(keepends)]: the lines of [s]; for bytes the line
    terminators are LF, CR and CR LF, kept at the end of each line when
    [keepends] is true.  A character that ends no line is put in front
    of the first line of what follows. *)
Definition line_end (keepends : bool) (term : bytes) : bytes :=
  if keepends then term else "".

Fixpoint splitlines (keepends : bool) (s : bytes) : list bytes :=
  match s with
  | "" => []
  | String c s' =>
      if Ascii.eqb c LF then
        line_end keepends (String LF "") :: splitlines keepends s'
      else if Ascii.eqb c CR then
        match s' with
        | String c' s'' =>
            if Ascii.eqb c' LF then
              line_end keepends (String CR (String LF ""))
                :: splitlines keepends s''
            else line_end keepends (String CR "") :: splitlines keepends s'
        | "" => [line_end keepends (String CR "")]
        end
      else
        match splitlines keepends s' with
        | [] => [String c ""]
        | l :: ls => String c l :: ls
        end
  end.

(** [s.replace(old, new)]: every non-overlapping occurrence of [old],
    from the left.  [skip] counts the characters of an occurrence just
    replaced that are still to be passed over. *)
Fixpoint replace_go (old new : bytes) (skip : nat) (s : bytes) : bytes :=
  match s with
  | "" => ""
  | String c s' =>
      match skip with
      | S n => replace_go old new n s'
      | O =>
          if String.prefix old s
          then new ++ replace_go old new (String.length old - 1) s'
          else String c (replace_go old new 0 s')
      end
  end.

(** With an empty [old], Python puts [new] before every character and
    at the end. *)
Fixpoint intersperse (new : bytes) (s : bytes) : bytes :=
  match s with
  | "" => new
  | String c s' => new ++ String c (intersperse new s')
  end.

Definition replace (s old new : bytes) : bytes :=
  match old with
  | "" => intersperse new s
  | _ => replace_go old new 0 s
  end.

End Bytes.

Import Bytes.

(** ** Regular expressions (the fragment of [re] the patterns use)

    [rmatch r s g k] is [re]'s backtracking search: it matches [r] at
    the front of [s] and hands the unread input and the groups captured
    so far to the continuation [k]; when [k] fails the next alternative
    is tried, the greedy choice first.  [pattern.match(s)] matches at
    the start of [s] and accepts any unread rest. *)

Module Re.

Inductive regex : Type :=
| Eps                                   (* empty pattern *)
| Chr (c : ascii)                       (* a literal character *)
| Dot                                   (* .   any character but LF *)
| Space                                 (* \s *)
| Eol                                   (* $   at the end, or before a final LF *)
| Seq (r1 r2 : regex)
| Alt (r1 r2 : regex)                   (* r1|r2 *)
| Star (r : regex)                      (* r*  greedy *)
| Group (name : bytes) (r : regex).     (* (?P<name>r) *)

Definition Opt (r : regex) : regex := Alt r Eps.        (* r? *)
Definition Plus (r : regex) : regex := Seq r (Star r).  (* r+ *)

Fixpoint Lit (s : bytes) : regex :=
  match s with
  | "" => Eps
  | String c s' => Seq (Chr c) (Lit s')
  end.

Definition groups := list (bytes * bytes).

(** The part of [s] read before reaching its suffix [s']. *)
Definition consumed (s s' : bytes) : bytes :=
  String.substring 0 (String.length s - String.length s') s.

(** The greedy loop of [r*]: one more round of [r] (given as [m]) when
    it reads something, the continuation otherwise.  Every round reads
    at least one character, so the length of the input bounds the
    number of rounds. *)
Definition matcher : Type :=
  bytes -> groups -> (bytes -> groups -> option groups) -> option groups.

Fixpoint star_iter (m : matcher) (k : bytes -> groups -> option groups)
         (fuel : nat) (s : bytes) (g : groups) : option groups :=
  match fuel with
  | O => k s g
  | S fuel' =>
      match m s g (fun s' g' =>
                     if Nat.ltb (String.length s') (String.length s)
                     then star_iter m k fuel' s' g' else None) with
      | Some res => Some res
      | None => k s g
      end
  end.

Fixpoint rmatch (r : regex) : matcher :=
  fun s g k =>
  match r with
  | Eps => k s g
  | Chr c =>
      match s with
      | String c' s' => if Ascii.eqb c c' then k s' g else None
      | "" => None
      end
  | Dot =>
      match s with
      | String c' s' => if Ascii.eqb c' LF then None else k s' g
      | "" => None
      end
  | Space =>
      match s with
      | String c' s' => if is_space c' then k s' g else None
      | "" => None
      end
  | Eol =>
      if String.eqb s "" || String.eqb s nl then k s g else None
  | Seq r1 r2 => rmatch r1 s g (fun s' g' => rmatch r2 s' g' k)
  | Alt r1 r2 =>
      match rmatch r1 s g k with
      | Some res => Some res
      | None => rmatch r2 s g k
      end
  | Star r1 => star_iter (rmatch r1) k (String.length s) s g
  | Group name r1 =>
      rmatch r1 s g (fun s' g' => k s' ((name, consumed s s') :: g'))
  end.

(** [r.match(s)] *)
Definition re_match (r : regex) (s : bytes) : option groups :=
  rmatch r s [] (fun _ g => Some g).

(** [m.group(name)] *)
Fixpoint group (g : groups) (name : bytes) : bytes :=
  match g with
  | [] => ""
  | (n, v) :: g' => if String.eqb n name then v else group g' name
  end.

End Re.

(** ** The [csv] reader as [parse_columns] configures it

    [csv.reader(..., quotechar='`', skipinitialspace=True)] with the
    default delimiter [,] and doubled quotes, reading one line.  The
    states are those of the reader; [field] holds the characters of the
    current field and [fields] the finished fields, both newest first.
    No line break reaches the reader: [splitlines] leaves line breaks at
    the end of a line only and both clause patterns require a character
    of the line after each captured text (lemma
    [parsed_texts_no_line_break]), so the reader's line-break
    transitions are left out. *)

Module Csv.

Inductive state : Type :=
| START_RECORD | START_FIELD | IN_FIELD | IN_QUOTED_FIELD
| QUOTE_IN_QUOTED_FIELD.

Definition quotechar : ascii := "`"%char.
Definition delimiter : ascii := ","%char.

Record reader : Type := mkReader {
  st : state;
  field : bytes;
  fields : list bytes
}.

Definition save_field (r : reader) : list bytes :=
  Bytes.rev_string "" (field r) :: fields r.

Definition add_char (c : ascii) (r : reader) (s : state) : reader :=
  mkReader s (String c (field r)) (fields r).

Definition process_char (r : reader) (c : ascii) : reader :=
  match st r with
  | START_RECORD | START_FIELD =>
      if Ascii.eqb c quotechar then mkReader IN_QUOTED_FIELD (field r) (fields r)
      else if Ascii.eqb c " "%char then mkReader START_FIELD (field r) (fields r)
      else if Ascii.eqb c delimiter then mkReader START_FIELD "" (save_field r)
      else add_char c r IN_FIELD
  | IN_FIELD =>
      if Ascii.eqb c delimiter then mkReader START_FIELD "" (save_field r)
      else add_char c r IN_FIELD
  | IN_QUOTED_FIELD =>
      if Ascii.eqb c quotechar
      then mkReader QUOTE_IN_QUOTED_FIELD (field r) (fields r)
      else add_char c r IN_QUOTED_FIELD
  | QUOTE_IN_QUOTED_FIELD =>
      if Ascii.eqb c quotechar then add_char c r IN_QUOTED_FIELD
      else if Ascii.eqb c delimiter then mkReader START_FIELD "" (save_field r)
      else add_char c r IN_FIELD
  end.

Fixpoint process (r : reader) (s : bytes) : reader :=
  match s with
  | "" => r
  | String c s' => process (process_char r c) s'
  end.

(** At the end of the line a record that was started is closed by
    saving its last field; an empty line is an empty record. *)
Definition end_of_line (r : reader) : list bytes :=
  match st r with
  | START_RECORD => []
  | _ => rev (save_field r)
  end.

Definition read_row (line : bytes) : list bytes :=
  end_of_line (process (mkReader START_RECORD "" []) line).

End Csv.

(** ** The module [defer.py] *)

Module Defer.
Import Re.

(** *** State and exceptions

    A call reads and writes the section it is given and writes log
    records; it returns a value or raises.  What a raising call has
    written before it raised stays written. *)

Record section : Type := mkSection {
  iterable : list bytes;
  database : bytes;
  table : bytes
}.

Inductive log_record : Type :=
| Debug (msg : bytes) (args : list bytes)
| Warn (msg : bytes) (args : list bytes).

Record world : Type := mkWorld {
  sec : section;
  log : list log_record      (* oldest first *)
}.

Inductive exn : Type :=
| ValueError (msg : bytes).

Inductive outcome (A : Type) : Type :=
| Return (a : A)
| Raise (e : exn).
Arguments Return {A} a.
Arguments Raise {A} e.

Definition M (A : Type) : Type := world -> world * outcome A.

Definition ret {A} (a : A) : M A := fun w => (w, Return a).
Definition raise {A} (e : exn) : M A := fun w => (w, Raise e).
Definition bind {A B} (m : M A) (f : A -> M B) : M B :=
  fun w => match m w with
           | (w', Return a) => f a w'
           | (w', Raise e) => (w', Raise e)
           end.

Notation "x <- m ;; f" := (bind m (fun x => f))
  (at level 61, m at next level, right associativity).
Notation "m ;;; f" := (bind m (fun _ => f))
  (at level 61, right associativity).

Definition get_iterable : M (list bytes) :=
  fun w => (w, Return (iterable (sec w))).
Definition set_iterable (lines : list bytes) : M unit :=
  fun w => (mkWorld (mkSection lines (database (sec w)) (table (sec w)))
                    (log w), Return tt).
Definition get_section : M section := fun w => (w, Return (sec w)).
Definition debug (msg : bytes) (args : list bytes) : M unit :=
  fun w => (mkWorld (sec w) (log w ++ [Debug msg args]), Return tt).
Definition warn (msg : bytes) (args : list bytes) : M unit :=
  fun w => (mkWorld (sec w) (log w ++ [Warn msg args]), Return tt).

(** *** Clause entries: the tuples [(name, columns, line)] *)

Definition entry : Type := bytes * list bytes * bytes.
Definition entry_name (e : entry) : bytes := fst (fst e).
Definition entry_columns (e : entry) : list bytes := snd (fst e).
Definition entry_line (e : entry) : bytes := snd e.

(** The tuples [(name, columns, line, constraint_name)] *)
Definition preserved : Type := bytes * list bytes * bytes * bytes.

Definition entry_eq_dec (x y : entry) : {x = y} + {x <> y}.
Proof. repeat decide equality. Defined.

Definition preserved_eq_dec (x y : preserved) : {x = y} + {x <> y}.
Proof. repeat decide equality. Defined.

(** *** [extract_create_table] *)

Fixpoint extract_create_table_loop (result : list bytes) (lines : list bytes)
  : list bytes :=
  match lines with
  | [] => result
  | line :: rest =>
      if startswith line "CREATE TABLE" then
        extract_create_table_loop (result ++ [line]) rest
      else
        match result with
        | [] => extract_create_table_loop result rest
        | _ =>
            if endswith (rstrip line) ";" then result ++ [line]
            else extract_create_table_loop (result ++ [line]) rest
        end
  end.

Definition extract_create_table (lines : list bytes) : bytes :=
  join (extract_create_table_loop [] lines).

(** *** The patterns *)

Notation "r1 >> r2" := (Seq r1 r2) (at level 60, right associativity).

(** [\s*(?:UNIQUE )?KEY (?P<name>`.+`) \((?P<columns>.+)\)(?: USING (?:BTREE|HASH))?,?$] *)
Definition KEY_CRE : regex :=
  Star Space >> Opt (Lit "UNIQUE ") >> Lit "KEY " >>
  Group "name" (Chr "`" >> Plus Dot >> Chr "`") >> Lit " (" >>
  Group "columns" (Plus Dot) >> Chr ")" >>
  Opt (Lit " USING " >> Alt (Lit "BTREE") (Lit "HASH")) >>
  Opt (Chr ",") >> Eol.

(** [^\s*CONSTRAINT (?P<name>`.+`) FOREIGN KEY \((?P<columns>.+)\) REFERENCES];
    the leading [^] is what [match] does anyway. *)
Definition CONSTRAINT_CRE : regex :=
  Star Space >> Lit "CONSTRAINT " >>
  Group "name" (Chr "`" >> Plus Dot >> Chr "`") >> Lit " FOREIGN KEY (" >>
  Group "columns" (Plus Dot) >> Lit ") REFERENCES".

(** [CREATE TABLE .*`(?P<name>.+)` \($] *)
Definition IDENT_CRE : regex :=
  Lit "CREATE TABLE " >> Star Dot >> Chr "`" >>
  Group "name" (Plus Dot) >> Lit "` (" >> Eol.

(** *** [parse_columns] *)

Definition parse_columns (value : bytes) : list bytes :=
  Csv.read_row value.

(** *** [extract_indexes] and [extract_constraints]

    [parse_columns(...)[0]]: the name group starts with a backtick, so
    its row has a first field. *)

Definition clause_entry (m : groups) (line : bytes) : entry :=
  (hd "" (parse_columns (group m "name")),
   parse_columns (group m "columns"),
   line).

Fixpoint extract_clauses (cre : regex) (lines : list bytes) : list entry :=
  match lines with
  | [] => []
  | line :: rest =>
      match re_match cre line with
      | None => extract_clauses cre rest
      | Some m => clause_entry m line :: extract_clauses cre rest
      end
  end.

Definition extract_indexes (table_ddl : bytes) : list entry :=
  extract_clauses KEY_CRE (splitlines true table_ddl).

Definition extract_constraints (table_ddl : bytes) : list entry :=
  extract_clauses CONSTRAINT_CRE (splitlines true table_ddl).

(** *** [extract_table_name]

    The message of the ValueError carries the DDL. *)

Fixpoint find_table_name (lines : list bytes) : option bytes :=
  match lines with
  | [] => None
  | line :: rest =>
      match re_match IDENT_CRE line with
      | Some m => Some (group m "name")
      | None => find_table_name rest
      end
  end.

Definition extract_table_name (table_ddl : bytes) : M bytes :=
  match find_table_name (splitlines false table_ddl) with
  | Some name => ret name
  | None =>
      raise (ValueError ("Failed to find table name from DDL: " ++ table_ddl))
  end.

(** *** [format_alter_table] *)

Definition alter_template (table : bytes) (lines : list bytes) : list bytes :=
  [ "--";
    "-- InnoDB Fast Index Creation (generated by dbsake)";
    "--";
    "";
    "ALTER TABLE `" ++ table ++ "`";
    "  ADD " ++ join_with (nl ++ "  ADD ") lines ].

Definition format_alter_table (table_ddl : bytes) (indexes : list entry)
  : M bytes :=
  table <- extract_table_name table_ddl ;;
  let lines := map (fun e => strip (entry_line e)) indexes in
  match lines with
  | [] => ret ""
  | _ =>
      let ddl := join_with nl (alter_template table lines) in
      ret (rstrip_commas ddl ++ ";")
  end.

(** *** [format_create_table]

    [result] is held newest first, so that [result[-1]] is its head. *)

Definition strip_trailing_comma (line : bytes) : bytes :=
  rstrip_commas (rstrip line) ++ nl.

Definition mem_line (line : bytes) (lines : list bytes) : bool :=
  existsb (String.eqb line) lines.

Fixpoint format_create_table_loop (deferred_lines : list bytes)
         (result : list bytes) (lines : list bytes) : list bytes :=
  match lines with
  | [] => result
  | line :: rest =>
      let result1 :=
        match result with
        | last :: before =>
            if startswith line ")"
            then strip_trailing_comma last :: before
            else result
        | [] => result
        end in
      let result2 :=
        if mem_line line deferred_lines then result1 else line :: result1 in
      format_create_table_loop deferred_lines result2 rest
  end.

Definition format_create_table_lines (table_ddl : bytes)
           (indexes : list entry) : list bytes :=
  rev (format_create_table_loop (map entry_line indexes) []
         (splitlines true table_ddl)).

Definition format_create_table (table_ddl : bytes) (indexes : list entry)
  : bytes :=
  join (format_create_table_lines table_ddl indexes).

(** *** [split_indexes] *)

(** [sorted(indexes, key=lambda x: len(x[1]))]: a stable sort. *)
Fixpoint insert_by_key {A} (key : A -> nat) (x : A) (l : list A) : list A :=
  match l with
  | [] => [x]
  | y :: l' =>
      if Nat.leb (key x) (key y) then x :: l else y :: insert_by_key key x l'
  end.

Fixpoint sorted {A} (key : A -> nat) (l : list A) : list A :=
  match l with
  | [] => []
  | x :: l' => insert_by_key key x (sorted key l')
  end.

(** [columns[0:len(_columns)] == _columns] *)
Definition is_prefix_index (_columns : list bytes) (index : entry) : bool :=
  if list_eq_dec string_dec
       (firstn (length _columns) (entry_columns index)) _columns
  then true else false.

(** The inner loop: the first index, in sorted order, that matches. *)
Definition first_prefix_index (indexes : list entry) (_columns : list bytes)
  : option entry :=
  find (is_prefix_index _columns)
       (sorted (fun x => length (entry_columns x)) indexes).

(** The outer loop over the constraints.  [preserved_indexes] is a
    Python set: the model keeps its elements in the order they were
    first added. *)
Fixpoint preserve_loop (indexes : list entry) (constraints : list entry)
         (preserved_indexes : list preserved) : list preserved :=
  match constraints with
  | [] => preserved_indexes
  | c :: rest =>
      let preserved_indexes' :=
        match first_prefix_index indexes (entry_columns c) with
        | Some i =>
            ListSet.set_add preserved_eq_dec
              (entry_name i, entry_columns i, entry_line i, entry_name c)
              preserved_indexes
        | None => preserved_indexes
        end in
      preserve_loop indexes rest preserved_indexes'
  end.

(** [indexes.remove(x)]: drops the first element equal to [x], and
    raises ValueError when there is none. *)
Fixpoint list_remove (x : entry) (l : list entry) : option (list entry) :=
  match l with
  | [] => None
  | y :: l' =>
      if entry_eq_dec x y then Some l'
      else option_map (cons y) (list_remove x l')
  end.

Definition remove (x : entry) (l : list entry) : M (list entry) :=
  match list_remove x l with
  | Some l' => ret l'
  | None => raise (ValueError "list.remove(x): x not in list")
  end.

(** The loop over [preserved_indexes]. *)
Fixpoint remove_loop (preserved_indexes : list preserved)
         (indexes : list entry) : M (list entry) :=
  match preserved_indexes with
  | [] => ret indexes
  | (index_name, columns, line, constraint) :: rest =>
      s <- get_section ;;
      warn "Not deferring %s.%s index `%s` - used by constraint `%s`"
           [database s; table s; index_name; constraint] ;;;
      indexes' <- remove (index_name, columns, line) indexes ;;
      remove_loop rest indexes'
  end.

Definition split_indexes (defer_constraints : bool) : M bytes :=
  lines <- get_iterable ;;
  set_iterable lines ;;;
  let table_ddl := extract_create_table lines in
  if negb (contains "ENGINE=InnoDB" table_ddl) then
    s <- get_section ;;
    debug "%s.%s is not an innodb table. Skipping index rewrite."
          [database s; table s] ;;;
    ret ""
  else
    let indexes := extract_indexes table_ddl in
    let constraints := extract_constraints table_ddl in
    indexes <-
      (if negb defer_constraints then
         remove_loop (preserve_loop indexes constraints []) indexes
       else ret (indexes ++ constraints)%list) ;;
    let patched_create_table := format_create_table table_ddl indexes in
    lines <- get_iterable ;;
    let section_rewrite := join lines in
    let section_rewrite :=
      replace section_rewrite table_ddl patched_create_table in
    set_iterable (splitlines true section_rewrite) ;;;
    format_alter_table table_ddl indexes.

End Defer.

Import Defer.

(** * Notions used in the statements *)

Section Vocabulary.
Import Re.

Definition is_create (line : bytes) : bool := startswith line "CREATE TABLE".

(** A line that ends the statement: one that is not itself tested as an
    opening line and whose right-stripped content ends with [;]. *)
Definition is_terminator (line : bytes) : bool :=
  negb (is_create line) && endswith (rstrip line) ";".

(** The lines up to and including the first one satisfying [p], or all
    of them when there is none. *)
Fixpoint through_first (p : bytes -> bool) (lines : list bytes) : list bytes :=
  match lines with
  | [] => []
  | l :: rest => if p l then [l] else l :: through_first p rest
  end.

Fixpoint drop_until (p : bytes -> bool) (lines : list bytes) : list bytes :=
  match lines with
  | [] => []
  | l :: rest => if p l then lines else drop_until p rest
  end.

(** Ascending order of the keys. *)
Definition ascending {A : Type} (key : A -> nat) : list A -> Prop :=
  StronglySorted (fun a b => key a <= key b).

(** The element a search through the sorted list stops at, computed on
    the list as declared: a later element wins only with a strictly
    smaller key. *)
Fixpoint pick {A : Type} (key : A -> nat) (p : A -> bool) (l : list A)
  : option A :=
  match l with
  | [] => None
  | x :: l' =>
      match pick key p l' with
      | Some y => if p x && Nat.leb (key x) (key y) then Some x else Some y
      | None => if p x then Some x else None
      end
  end.

Definition columns_length (x : entry) : nat := length (entry_columns x).

(** The tuple recorded when index [i] is kept for constraint [c]. *)
Definition preserved_for (i c : entry) : preserved :=
  (entry_name i, entry_columns i, entry_line i, entry_name c).

Definition preserved_index (x : preserved) : entry :=
  match x with (index_name, columns, line, _) => (index_name, columns, line) end.

Definition warning (s : section) (x : preserved) : log_record :=
  match x with
  | (index_name, _, _, constraint) =>
      Warn "Not deferring %s.%s index `%s` - used by constraint `%s`"
           [database s; table s; index_name; constraint]
  end.

(** The list left when the given entries have been removed one after
    the other, if each was there to be removed. *)
Fixpoint remove_all (xs : list entry) (l : list entry) : option (list entry) :=
  match xs with
  | [] => Some l
  | x :: rest =>
      match list_remove x l with
      | Some l' => remove_all rest l'
      | None => None
      end
  end.

(** The branch on [defer_constraints]: what is left to defer. *)
Definition resolver (defer_constraints : bool)
           (indexes constraints : list entry) : M (list entry) :=
  if negb defer_constraints
  then remove_loop (preserve_loop indexes constraints []) indexes
  else ret (indexes ++ constraints)%list.

(** The section once the patched CREATE TABLE has been put in place. *)
Definition rewritten (s : section) (table_ddl : bytes)
           (deferred : list entry) : section :=
  mkSection
    (splitlines true
       (replace (join (iterable s)) table_ddl
                (format_create_table table_ddl deferred)))
    (database s) (table s).

(** The text [format_alter_table] builds for a table name and the
    entries to defer. *)
Definition alter_table_text (name : bytes) (deferred : list entry) : bytes :=
  match map (fun e => strip (entry_line e)) deferred with
  | [] => ""
  | lines => rstrip_commas (join_with nl (alter_template name lines)) ++ ";"
  end.




(** With nothing deferred, every line is emitted, and a line is
    stripped when the next one starts with [)]. *)
Fixpoint close_lines (lines : list bytes) : list bytes :=
  match lines with
  | [] => []
  | l :: rest =>
      match rest with
      | q :: _ => if startswith q ")" then strip_trailing_comma l else l
      | [] => l
      end :: close_lines rest
  end.

(** The lines [close_lines] would strip are already stripped. *)
Fixpoint closing_lines_clean (lines : list bytes) : bool :=
  match lines with
  | [] => true
  | l :: rest =>
      match rest with
      | q :: _ =>
          if startswith q ")" then String.eqb (strip_trailing_comma l) l
          else true
      | [] => true
      end && closing_lines_clean rest
  end.

(** [line] has the shape of the pattern. *)
Definition matches (cre : regex) (line : bytes) : bool :=
  match re_match cre line with Some _ => true | None => false end.

(** The pattern captures nothing. *)
Fixpoint has_group (r : regex) : bool :=
  match r with
  | Group _ _ => true
  | Seq r1 r2 | Alt r1 r2 => has_group r1 || has_group r2
  | Star r1 => has_group r1
  | _ => false
  end.

Definition suffix (s' s : bytes) : Prop := exists p, s = p ++ s'.

(** Line breaks: the characters [splitlines] ends a line at. *)
Definition is_break (c : ascii) : bool := Ascii.eqb c LF || Ascii.eqb c CR.

Fixpoint no_break (s : bytes) : bool :=
  match s with
  | "" => true
  | String c s' => negb (is_break c) && no_break s'
  end.

Fixpoint only_breaks (s : bytes) : bool :=
  match s with
  | "" => true
  | String c s' => is_break c && only_breaks s'
  end.

(** [v] stands in [line] in front of a character that is no line
    break. *)
Definition followed_in (line v : bytes) : Prop :=
  exists pre c rest, line = pre ++ v ++ String c rest /\ is_break c = false.





(** The least number of characters a pattern reads. *)
Fixpoint min_len (r : regex) : nat :=
  match r with
  | Eps | Eol => 0
  | Chr _ | Dot | Space => 1
  | Seq r1 r2 => min_len r1 + min_len r2
  | Alt r1 r2 => Nat.min (min_len r1) (min_len r2)
  | Star _ => 0
  | Group _ r1 => min_len r1
  end.

(** No line feed: the characters [.] reads. *)
Fixpoint no_lf (s : bytes) : bool :=
  match s with
  | "" => true
  | String c s' => negb (Ascii.eqb c LF) && no_lf s'
  end.

(** The search of a greedy [.*]: what follows is tried after the longest
    run of characters first, then after shorter and shorter ones. *)
Fixpoint greedy_dot (k : bytes -> Re.groups -> option Re.groups) (s : bytes)
         (g : Re.groups) : option Re.groups :=
  match s with
  | "" => k s g
  | String c s' =>
      if Ascii.eqb c LF then k s g
      else match greedy_dot k s' g with
           | Some res => Some res
           | None => k s g
           end
  end.

(** The line opens the table [name]: [CREATE TABLE], any text, the name
    between backticks, a blank and an opening parenthesis at its end. *)
Definition names_table (line pre name : bytes) : Prop :=
  name <> "" /\ line = "CREATE TABLE " ++ pre ++ "`" ++ name ++ "` (".

(** The lines before the first one satisfying [p], and those after it. *)
Fixpoint before_first (p : bytes -> bool) (lines : list bytes) : list bytes :=
  match lines with
  | [] => []
  | l :: rest => if p l then [] else l :: before_first p rest
  end.

Fixpoint after_first (p : bytes -> bool) (lines : list bytes) : list bytes :=
  match lines with
  | [] => []
  | l :: rest => if p l then rest else after_first p rest
  end.

(** A line as a dump has it: a body without line break, then a line
    feed. *)
Definition terminated (line : bytes) : Prop :=
  exists body, line = body ++ nl /\ no_break body = true.





End Vocabulary.

(** ** Example sections *)

Module Examples.


(** Two foreign keys served by the same index. *)
Definition shared_index : world :=
  mkWorld
    (mkSection
       [ "CREATE TABLE `t` (" ++ nl;
         "  `a` int(11) NOT NULL," ++ nl;
         "  `b` int(11) NOT NULL," ++ nl;
         "  KEY `idx_ab` (`a`,`b`)," ++ nl;
         "  CONSTRAINT `fk_a` FOREIGN KEY (`a`) REFERENCES `p` (`id`)," ++ nl;
         "  CONSTRAINT `fk_ab` FOREIGN KEY (`a`, `b`) REFERENCES `q` (`x`, `y`)"
           ++ nl;
         ") ENGINE=InnoDB DEFAULT CHARSET=utf8;" ++ nl ]
       "db" "t")
    [].

(** A table name written without backticks. *)
Definition unquoted_name : world :=
  mkWorld
    (mkSection
       [ "DROP TABLE IF EXISTS t;" ++ nl;
         "CREATE TABLE t (" ++ nl;
         "  `a` INT," ++ nl;
         "  KEY `idx_a` (`a`)" ++ nl;
         ") ENGINE=InnoDB;" ++ nl ]
       "db" "t")
    [].

(** An index on (a), an index on (a, b, c), a foreign key on (a, b). *)
Definition prefix_indexes : world :=
  mkWorld
    (mkSection
       [ "CREATE TABLE `t` (" ++ nl;
         "  `a` int(11) NOT NULL," ++ nl;
         "  `b` int(11) NOT NULL," ++ nl;
         "  `c` int(11) NOT NULL," ++ nl;
         "  PRIMARY KEY (`c`)," ++ nl;
         "  KEY `idx_abc` (`a`,`b`,`c`)," ++ nl;
         "  KEY `idx_a` (`a`)," ++ nl;
         "  UNIQUE KEY `idx_ab2` (`a`,`b`) USING BTREE," ++ nl;
         "  KEY `idx_ab1` (`a`,`b`)," ++ nl;
         "  KEY `idx_ba` (`b`,`a`)," ++ nl;
         "  CONSTRAINT `fk_ab` FOREIGN KEY (`a`, `b`) REFERENCES `q` (`x`, `y`)"
           ++ nl;
         ") ENGINE=InnoDB DEFAULT CHARSET=utf8;" ++ nl;
         "INSERT INTO `t` VALUES (1,2,3);" ++ nl ]
       "db" "t")
    [].

(** The two indexes of the prefix scenario and nothing else. *)
Definition short_and_long : world :=
  mkWorld
    (mkSection
       [ "CREATE TABLE `t` (" ++ nl;
         "  `a` int(11) NOT NULL," ++ nl;
         "  `b` int(11) NOT NULL," ++ nl;
         "  `c` int(11) NOT NULL," ++ nl;
         "  KEY `idx_a` (`a`)," ++ nl;
         "  KEY `idx_abc` (`a`,`b`,`c`)," ++ nl;
         "  CONSTRAINT `fk_ab` FOREIGN KEY (`a`, `b`) REFERENCES `q` (`x`, `y`)"
           ++ nl;
         ") ENGINE=InnoDB;" ++ nl ]
       "db" "t")
    [].


(** No index and no constraint; the last column line ends in a blank. *)
Definition no_clauses_trailing_blank : world :=
  mkWorld
    (mkSection
       [ "CREATE TABLE `t` (" ++ nl;
         "  `a` INT " ++ nl;
         ") ENGINE=InnoDB;" ++ nl ]
       "db" "t")
    [].

Definition no_clauses : world :=
  mkWorld
    (mkSection
       [ "CREATE TABLE `t` (" ++ nl;
         "  `a` INT," ++ nl;
         "  PRIMARY KEY (`a`)" ++ nl;
         ") ENGINE=InnoDB;" ++ nl ]
       "db" "t")
    [].

Definition not_innodb : world :=
  mkWorld
    (mkSection
       [ "CREATE TABLE `t` (" ++ nl;
         " `a` INT," ++ nl;
         " KEY `idx_a` (`a`)" ++ nl;
         ") ENGINE=MyISAM;" ++ nl;
         "INSERT INTO `t` VALUES (1);" ++ nl ]
       "db" "t")
    [].

End Examples.

(** Clause entries and texts of the example sections. *)
Definition ddl_of (w : world) : bytes := extract_create_table (iterable (sec w)).

Definition idx_a : entry := ("idx_a", ["a"], "  KEY `idx_a` (`a`)," ++ nl).
Definition idx_ab2 : entry :=
  ("idx_ab2", ["a"; "b"],
   "  UNIQUE KEY `idx_ab2` (`a`,`b`) USING BTREE," ++ nl).
Definition fk_ab : entry :=
  ("fk_ab", ["a"; "b"],
   "  CONSTRAINT `fk_ab` FOREIGN KEY (`a`, `b`) REFERENCES `q` (`x`, `y`)"
     ++ nl).
Definition idx_ab : entry := ("idx_ab", ["a"; "b"], "  KEY `idx_ab` (`a`,`b`)," ++ nl).
Definition fk_a : entry :=
  ("fk_a", ["a"],
   "  CONSTRAINT `fk_a` FOREIGN KEY (`a`) REFERENCES `p` (`id`)," ++ nl).

(** * Properties *)

(** ** Byte strings *)

Section StringFacts.

Lemma append_nil_r (s : bytes) : s ++ "" = s.
Proof. induction s; simpl; congruence. Qed.

Lemma append_assoc (a b c : bytes) : (a ++ b) ++ c = a ++ (b ++ c).
Proof. induction a; simpl; congruence. Qed.

Lemma join_cons (l : bytes) (ls : list bytes) : join (l :: ls) = l ++ join ls.
Proof.
  unfold join. destruct ls as [|l' ls]; simpl.
  - now rewrite append_nil_r.
  - reflexivity.
Qed.

(** Splitting into lines with their terminators loses nothing. *)
Lemma join_splitlines_aux (n : nat) :
  forall s, String.length s <= n -> join (splitlines true s) = s.
Proof.
  induction n as [|n IH]; intros s Hn.
  - destruct s; [reflexivity | simpl in Hn; lia].
  - destruct s as [|c s']; [reflexivity|].
    simpl in Hn. cbn [splitlines].
    destruct (Ascii.eqb_spec c LF) as [->|HLF].
    + rewrite join_cons, IH by lia. reflexivity.
    + destruct (Ascii.eqb_spec c CR) as [->|HCR].
      * destruct s' as [|c' s'']; [reflexivity|].
        destruct (Ascii.eqb_spec c' LF) as [->|HLF'].
        -- rewrite join_cons, IH by (simpl in Hn; lia). reflexivity.
        -- rewrite join_cons, IH by lia. reflexivity.
      * specialize (IH s' ltac:(lia)).
        destruct (splitlines true s') as [|l ls].
        -- cbn in IH. subst s'. reflexivity.
        -- rewrite join_cons in *. simpl. now rewrite IH.
Qed.

Lemma join_splitlines (s : bytes) : join (splitlines true s) = s.
Proof. exact (join_splitlines_aux (String.length s) s (le_n _)). Qed.

Lemma prefix_cons (c : ascii) (p s : bytes) :
  String.prefix (String c p) s = true ->
  exists s', s = String c s' /\ String.prefix p s' = true.
Proof.
  destruct s as [|c' s']; simpl; [discriminate|].
  destruct (Ascii.ascii_dec c c') as [->|]; [|discriminate]. eauto.
Qed.

End StringFacts.

(** ** [extract_create_table] *)

Section ExtractCreateTable.

Lemma extract_loop_started (lines : list bytes) :
  forall r0 result,
    extract_create_table_loop (r0 :: result) lines
    = ((r0 :: result) ++ through_first is_terminator lines)%list.
Proof.
  induction lines as [|l rest IH]; intros r0 result.
  - cbn. now rewrite app_nil_r.
  - cbn [extract_create_table_loop through_first].
    unfold is_terminator, is_create.
    destruct (startswith l "CREATE TABLE").
    + cbn [negb andb].
      change ((r0 :: result) ++ [l])%list with (r0 :: (result ++ [l]))%list.
      rewrite IH. cbn. now rewrite <- app_assoc.
    + cbn [negb andb].
      destruct (endswith (rstrip l) ";"); [reflexivity|].
      change ((r0 :: result) ++ [l])%list with (r0 :: (result ++ [l]))%list.
      rewrite IH. cbn. now rewrite <- app_assoc.
Qed.

Lemma extract_loop_spec (lines : list bytes) :
  extract_create_table_loop [] lines
  = through_first is_terminator (drop_until is_create lines).
Proof.
  induction lines as [|l rest IH]; [reflexivity|].
  cbn [extract_create_table_loop drop_until]. unfold is_create at 1.
  destruct (startswith l "CREATE TABLE") eqn:E.
  - cbn [app]. rewrite extract_loop_started.
    cbn [through_first]. unfold is_terminator at 2, is_create. rewrite E.
    reflexivity.
  - exact IH.
Qed.

Lemma join_create_nonempty (l : bytes) (rest : list bytes) :
  is_create l = true -> join (l :: rest) <> "".
Proof.
  intros H E. rewrite join_cons in E.
  destruct l; [discriminate H | discriminate E].
Qed.

Lemma drop_until_none (p : bytes -> bool) (lines : list bytes) :
  existsb p lines = false -> drop_until p lines = [].
Proof.
  induction lines as [|l rest IH]; cbn; [reflexivity|].
  destruct (p l); cbn; [discriminate | exact IH].
Qed.

Lemma drop_until_some (p : bytes -> bool) (lines : list bytes) :
  existsb p lines = true ->
  exists l rest, drop_until p lines = l :: rest /\ p l = true.
Proof.
  induction lines as [|l rest IH]; cbn; [discriminate|].
  destruct (p l) eqn:E; cbn; eauto.
Qed.

(** C9 (as amended).  For every sequence of section lines,
    [extract_create_table] returns the concatenation of the lines from
    the first line starting with [CREATE TABLE] through the first later
    line that does not itself start with [CREATE TABLE] and whose
    right-stripped content ends with [;] -- or through the last line of
    the section when no such line follows.  The result is empty exactly
    when no line starts with [CREATE TABLE]. *)
Theorem extract_create_table_run (lines : list bytes) :
  extract_create_table lines
  = join (through_first is_terminator (drop_until is_create lines))
  /\ String.eqb (extract_create_table lines) ""
     = negb (existsb is_create lines).
Proof.
  unfold extract_create_table. rewrite extract_loop_spec. split; [reflexivity|].
  destruct (existsb is_create lines) eqn:E.
  - destruct (drop_until_some _ _ E) as (l & rest & -> & Hl).
    cbn [negb through_first]. apply String.eqb_neq.
    unfold is_terminator. rewrite Hl. cbn [negb andb].
    now apply join_create_nonempty.
  - rewrite (drop_until_none _ _ E). reflexivity.
Qed.

(** C9, counterexample.  A [CREATE TABLE] line followed by no line
    ending in [;] does not give empty bytes: everything from the opening
    line to the end of the section is returned.  And a later line that
    starts with [CREATE TABLE] does not end the run even when it ends
    with [;]. *)
Lemma extract_create_table_unterminated_counterexample :
  (let lines := ["CREATE TABLE `t` (" ++ nl; " `a` INT" ++ nl] in
   existsb (fun l => endswith (rstrip l) ";") lines = false
   /\ extract_create_table lines <> ""
   /\ extract_create_table lines = join lines)
  /\ (let l1 := "CREATE TABLE `a` (" ++ nl in
      let l2 := "CREATE TABLE `b` (x);" ++ nl in
      let l3 := ") ENGINE=InnoDB;" ++ nl in
      endswith (rstrip l2) ";" = true
      /\ extract_create_table [l1; l2; l3; "--" ++ nl] <> join [l1; l2]
      /\ extract_create_table [l1; l2; l3; "--" ++ nl] = join [l1; l2; l3]).
Proof.
  repeat split; try reflexivity; vm_compute; discriminate.
Qed.

End ExtractCreateTable.

(** ** [split_indexes]: tables that are not InnoDB *)

Section NotInnoDB.

Lemma section_eta (s : section) :
  mkSection (iterable s) (database s) (table s) = s.
Proof. now destruct s. Qed.

Lemma world_eta (w : world) : mkWorld (sec w) (log w) = w.
Proof. now destruct w. Qed.

(** C7.  When the extracted CREATE TABLE text does not contain
    [ENGINE=InnoDB], [split_indexes] returns empty bytes and leaves the
    section as it was, every line included: the only trace of the call
    is one debug record. *)
Theorem split_indexes_not_innodb (defer_constraints : bool) (w : world) :
  contains "ENGINE=InnoDB" (extract_create_table (iterable (sec w))) = false ->
  split_indexes defer_constraints w
  = (mkWorld (sec w)
       (log w ++ [Debug "%s.%s is not an innodb table. Skipping index rewrite."
                        [database (sec w); table (sec w)]]),
     Return "").
Proof.
  intros H. unfold split_indexes, bind, get_iterable, set_iterable.
  cbn [sec log iterable database table]. rewrite H. cbn [negb].
  unfold get_section, debug, ret. cbn [sec log].
  now rewrite section_eta.
Qed.

Lemma split_indexes_not_innodb_witness :
  let w := Examples.not_innodb in
  contains "ENGINE=InnoDB" (ddl_of w) = false
  /\ iterable (sec (fst (split_indexes false w))) = iterable (sec w)
  /\ snd (split_indexes false w) = Return "".
Proof.
  intros w. split; [reflexivity|].
  rewrite (split_indexes_not_innodb false w) by reflexivity.
  split; reflexivity.
Defined.

End NotInnoDB.

(** ** The stable sort and the search for a prefix index *)

Section StableSort.

Variable A : Type.
Variable key : A -> nat.
Variable p : A -> bool.

Lemma insert_by_key_perm (x : A) (l : list A) :
  Permutation (x :: l) (insert_by_key key x l).
Proof.
  induction l as [|y l IH]; cbn; [reflexivity|].
  destruct (Nat.leb (key x) (key y)); [reflexivity|].
  rewrite perm_swap. now constructor.
Qed.

Lemma sorted_perm (l : list A) : Permutation l (sorted key l).
Proof.
  induction l as [|x l IH]; cbn; [constructor|].
  rewrite <- insert_by_key_perm. now constructor.
Qed.

Lemma insert_by_key_ascending (x : A) (l : list A) :
  ascending key l -> ascending key (insert_by_key key x l).
Proof.
  unfold ascending. induction 1 as [|y l Hl IH Hy]; cbn.
  - repeat constructor.
  - destruct (Nat.leb_spec (key x) (key y)) as [Hxy|Hxy].
    + constructor; [now constructor|].
      constructor; [exact Hxy|].
      eapply Forall_impl; [|exact Hy]. cbn. intros; lia.
    + constructor; [exact IH|].
      rewrite <- insert_by_key_perm. constructor; [lia | exact Hy].
Qed.

Lemma sorted_ascending (l : list A) : ascending key (sorted key l).
Proof.
  induction l as [|x l IH]; cbn; [constructor|].
  now apply insert_by_key_ascending.
Qed.



Lemma find_insert_by_key (x : A) (l : list A) :
  ascending key l ->
  find p (insert_by_key key x l)
  = match find p l with
    | Some y => if p x && Nat.leb (key x) (key y) then Some x else Some y
    | None => if p x then Some x else None
    end.
Proof.
  unfold ascending. induction 1 as [|y l Hl IH Hy]; [reflexivity|].
  cbn [insert_by_key].
  destruct (Nat.leb_spec (key x) (key y)) as [Hxy|Hxy].
  - cbn [find]. destruct (p x) eqn:Px; cbn [andb].
    + destruct (p y) eqn:Py.
      * destruct (Nat.leb_spec (key x) (key y)); [reflexivity | lia].
      * destruct (find p l) as [y0|] eqn:F; [|reflexivity].
        apply find_some in F. destruct F as [Hin _].
        rewrite Forall_forall in Hy. specialize (Hy _ Hin).
        destruct (Nat.leb_spec (key x) (key y0)); [reflexivity | lia].
    + destruct (p y); [reflexivity|]. now destruct (find p l).
  - cbn [find]. destruct (p y) eqn:Py.
    + destruct (Nat.leb_spec (key x) (key y)); [lia|].
      now rewrite andb_false_r.
    + exact IH.
Qed.

Lemma find_sorted (l : list A) : find p (sorted key l) = pick key p l.
Proof.
  induction l as [|x l IH]; [reflexivity|].
  cbn [sorted pick]. rewrite find_insert_by_key by apply sorted_ascending.
  now rewrite IH.
Qed.

Lemma pick_none (l : list A) :
  pick key p l = None -> forall j, In j l -> p j = false.
Proof.
  induction l as [|x l IH]; cbn; [contradiction|].
  destruct (pick key p l) as [y|].
  - destruct (p x && Nat.leb (key x) (key y)); discriminate.
  - destruct (p x) eqn:Px; [discriminate|].
    intros _ j [<-|Hj]; auto.
Qed.

(** The element picked is the earliest one among those of least key
    that satisfy [p]. *)
Lemma pick_some (l : list A) (i : A) :
  pick key p l = Some i ->
  exists pre post,
    l = (pre ++ i :: post)%list /\ p i = true
    /\ (forall j, In j pre -> p j = true -> key i < key j)
    /\ (forall j, In j post -> p j = true -> key i <= key j).
Proof.
  revert i. induction l as [|x l IH]; cbn; [discriminate|].
  intros i. destruct (pick key p l) as [y|] eqn:Py.
  - destruct (IH y eq_refl) as (pre & post & -> & Hy & Hpre & Hpost).
    destruct (p x) eqn:Px; cbn [andb].
    + destruct (Nat.leb_spec (key x) (key y)) as [Hxy|Hxy];
        intros [= <-].
      * exists [], (pre ++ y :: post)%list. repeat split; auto.
        -- contradiction.
        -- intros j Hj Pj. apply in_app_or in Hj.
           destruct Hj as [Hj|[<-|Hj]].
           ++ specialize (Hpre _ Hj Pj). lia.
           ++ exact Hxy.
           ++ specialize (Hpost _ Hj Pj). lia.
      * exists (x :: pre), post. repeat split; auto.
        intros j [<-|Hj] Pj; [lia | auto].
    + intros [= <-]. exists (x :: pre), post. repeat split; auto.
      intros j [<-|Hj] Pj; [congruence | auto].
  - destruct (p x) eqn:Px; [|discriminate]. intros [= <-].
    exists [], l. repeat split; auto.
    + contradiction.
    + intros j Hj Pj. rewrite (pick_none _ Py _ Hj) in Pj. discriminate.
Qed.


End StableSort.


(** ** The preservation resolver *)

Section Resolver.

Lemma preserved_index_for (i c : entry) : preserved_index (preserved_for i c) = i.
Proof. now destruct i as [[? ?] ?]. Qed.

Lemma is_prefix_index_spec (_columns : list bytes) (i : entry) :
  is_prefix_index _columns i = true
  <-> firstn (length _columns) (entry_columns i) = _columns.
Proof.
  unfold is_prefix_index.
  destruct (list_eq_dec string_dec _ _); split; congruence.
Qed.



Lemma first_prefix_index_pick (indexes : list entry) (_columns : list bytes) :
  first_prefix_index indexes _columns
  = pick columns_length (is_prefix_index _columns) indexes.
Proof. apply find_sorted. Qed.

(** What the loop over the constraints collects: every search is made
    in the same list [indexes]. *)
Lemma preserve_loop_In (indexes constraints : list entry) :
  forall (acc : list preserved) (x : preserved),
    In x (preserve_loop indexes constraints acc)
    <-> In x acc
        \/ exists c i, In c constraints
                       /\ first_prefix_index indexes (entry_columns c) = Some i
                       /\ x = preserved_for i c.
Proof.
  induction constraints as [|c rest IH]; intros acc x; cbn [preserve_loop].
  - split; [auto | intros [H|(c & i & [] & _)]; exact H].
  - rewrite IH. destruct (first_prefix_index indexes (entry_columns c))
      as [i|] eqn:F.
    + fold (preserved_for i c). rewrite set_add_iff. split.
      * intros [[->|H]|(c' & i' & Hc' & F' & ->)]; eauto 8 using in_eq, in_cons.
      * intros [H|(c' & i' & [<-|Hc'] & F' & ->)]; eauto 8.
        left. left. congruence.
    + split.
      * intros [H|(c' & i' & Hc' & F' & ->)]; eauto 8 using in_cons.
      * intros [H|(c' & i' & [<-|Hc'] & F' & ->)]; eauto 8. congruence.
Qed.

Lemma preserve_loop_NoDup (indexes constraints : list entry) :
  forall acc, NoDup acc -> NoDup (preserve_loop indexes constraints acc).
Proof.
  induction constraints as [|c rest IH]; intros acc H; cbn; [exact H|].
  apply IH. destruct (first_prefix_index _ _); [|exact H].
  now apply set_add_nodup.
Qed.

(** *** Taking the preserved indexes out of the list *)

Lemma list_remove_In (x : entry) (l l' : list entry) :
  list_remove x l = Some l' ->
  In x l /\ forall y, In y l' -> In y l.
Proof.
  revert l'. induction l as [|z l IH]; cbn; [discriminate|]. intros l'.
  destruct (entry_eq_dec x z) as [->|Hxz].
  - intros [= <-]. auto.
  - destruct (list_remove x l) as [l0|]; [|discriminate].
    intros [= <-]. destruct (IH _ eq_refl) as [Hx Hl0].
    split; [now right|]. intros y [<-|Hy]; [now left | right; auto].
Qed.

Lemma list_remove_NoDup (x : entry) (l l' : list entry) :
  list_remove x l = Some l' -> NoDup l ->
  NoDup l' /\ forall y, In y l' <-> In y l /\ y <> x.
Proof.
  revert l'. induction l as [|z l IH]; cbn; [discriminate|]. intros l'.
  destruct (entry_eq_dec x z) as [->|Hxz].
  - intros [= <-] H. inversion_clear H as [|? ? Hz Hl]. split; [exact Hl|].
    intros y. split.
    + intros Hy. split; [now right | congruence].
    + intros [[<-|Hy] Hne]; [congruence | exact Hy].
  - destruct (list_remove x l) as [l0|]; [|discriminate].
    intros [= <-] H. inversion_clear H as [|? ? Hz Hl].
    destruct (IH _ eq_refl Hl) as [Hnd Hiff]. split.
    + constructor; [|exact Hnd]. rewrite Hiff. tauto.
    + intros y. cbn. rewrite Hiff. split.
      * intros [<-|[Hy Hne]]; auto.
      * intros [[<-|Hy] Hne]; auto.
Qed.

(** A run of the removal loop writes nothing but warnings, leaves the
    section alone, and either returns some of the indexes it was given
    or raises the error of [list.remove]. *)
Lemma remove_loop_cases (preserved_indexes : list preserved) :
  forall (indexes : list entry) (w : world),
    (exists deferred,
        remove_loop preserved_indexes indexes w
        = (mkWorld (sec w)
             (log w ++ map (warning (sec w)) preserved_indexes), Return deferred)
        /\ (forall y, In y deferred -> In y indexes)
        /\ (NoDup indexes ->
            NoDup deferred
            /\ forall y, In y deferred
                         <-> In y indexes
                             /\ ~ In y (map preserved_index preserved_indexes)))
    \/ (exists lg,
          remove_loop preserved_indexes indexes w
          = (mkWorld (sec w) (log w ++ lg),
             Raise (ValueError "list.remove(x): x not in list"))).
Proof.
  induction preserved_indexes as [|[[[n cl] ln] cn] rest IH]; intros indexes w.
  - left. exists indexes. cbn. rewrite app_nil_r, world_eta.
    split; [reflexivity|]. split; [auto|]. intros H. split; [exact H|].
    intros y. tauto.
  - cbn [remove_loop]. unfold bind, get_section, warn, remove.
    cbn [sec log]. destruct (list_remove (n, cl, ln) indexes) as [l'|] eqn:R.
    + unfold ret.
      set (w1 := mkWorld (sec w) (log w ++ [warning (sec w) (n, cl, ln, cn)])).
      destruct (IH l' w1) as [(d & E & Hin & Hnd)|(lg & E)].
      * left. exists d. change (Warn _ _) with (warning (sec w) (n, cl, ln, cn)).
        fold w1. rewrite E. subst w1. cbn [sec log map].
        rewrite <- app_assoc. split; [reflexivity|].
        destruct (list_remove_In _ _ _ R) as [_ Hl']. split; [auto|].
        intros H. destruct (list_remove_NoDup _ _ _ R H) as [Hl'nd Hl'iff].
        destruct (Hnd Hl'nd) as [Hdnd Hdiff]. split; [exact Hdnd|].
        intros y. rewrite Hdiff, Hl'iff. cbn. intuition congruence.
      * right. exists ([warning (sec w) (n, cl, ln, cn)] ++ lg)%list.
        change (Warn _ _) with (warning (sec w) (n, cl, ln, cn)).
        fold w1. rewrite E. subst w1. cbn [sec log].
        now rewrite <- app_assoc.
    + right. exists [warning (sec w) (n, cl, ln, cn)]. reflexivity.
Qed.

End Resolver.

(** ** The order in which the set of preserved indexes is iterated

    The model iterates [preserved_indexes] in the order of insertion; a
    Python set promises no order.  The list the removal loop returns,
    and whether it returns at all, are the same for every order; only
    the order of the warnings follows the iteration. *)

Section IterationOrder.

Lemma list_remove_comm (x y : entry) (l : list entry) :
  match list_remove x l with
  | Some l1 => list_remove y l1
  | None => None
  end
  = match list_remove y l with
    | Some l2 => list_remove x l2
    | None => None
    end.
Proof.
  induction l as [|z l IH]; [reflexivity|]. cbn [list_remove].
  destruct (entry_eq_dec x z) as [Exz|Nxz], (entry_eq_dec y z) as [Eyz|Nyz].
  - congruence.
  - subst z. destruct (list_remove y l) as [l2|]; cbn; [|reflexivity].
    destruct (entry_eq_dec x x); [reflexivity | contradiction].
  - subst z. destruct (list_remove x l) as [l1|]; cbn; [|reflexivity].
    destruct (entry_eq_dec y y); [reflexivity | contradiction].
  - destruct (list_remove x l) as [l1|], (list_remove y l) as [l2|];
      cbn [option_map list_remove].
    + destruct (entry_eq_dec y z); [contradiction|].
      destruct (entry_eq_dec x z); [contradiction|]. now rewrite IH.
    + destruct (entry_eq_dec y z); [contradiction|]. now rewrite IH.
    + destruct (entry_eq_dec x z); [contradiction|]. now rewrite <- IH.
    + reflexivity.
Qed.

Lemma remove_all_permutation (xs xs' : list entry) :
  Permutation xs xs' ->
  forall l, remove_all xs l = remove_all xs' l.
Proof.
  induction 1 as [|x xs xs' _ IH|x y xs|xs xs' xs'' _ IH1 _ IH2]; intros l.
  - reflexivity.
  - cbn. destruct (list_remove x l); [apply IH | reflexivity].
  - cbn [remove_all].
    transitivity
      (match (match list_remove y l with
              | Some l1 => list_remove x l1
              | None => None
              end) with
       | Some l'' => remove_all xs l''
       | None => None
       end).
    + now destruct (list_remove y l).
    + rewrite (list_remove_comm y x l). now destruct (list_remove x l).
  - now rewrite IH1.
Qed.

Lemma remove_loop_remove_all (preserved_indexes : list preserved) :
  forall (indexes : list entry) (w : world),
    match remove_all (map preserved_index preserved_indexes) indexes with
    | Some deferred =>
        remove_loop preserved_indexes indexes w
        = (mkWorld (sec w)
             (log w ++ map (warning (sec w)) preserved_indexes),
           Return deferred)
    | None =>
        exists lg,
          remove_loop preserved_indexes indexes w
          = (mkWorld (sec w) (log w ++ lg),
             Raise (ValueError "list.remove(x): x not in list"))
    end.
Proof.
  induction preserved_indexes as [|[[[n cl] ln] cn] rest IH]; intros indexes w.
  - cbn. now rewrite app_nil_r, world_eta.
  - cbn [map preserved_index remove_all remove_loop].
    unfold bind, get_section, warn, remove. cbn [sec log].
    destruct (list_remove (n, cl, ln) indexes) as [l'|].
    + unfold ret.
      change (Warn _ _) with (warning (sec w) (n, cl, ln, cn)).
      set (w1 := mkWorld (sec w) (log w ++ [warning (sec w) (n, cl, ln, cn)])).
      specialize (IH l' w1).
      destruct (remove_all (map preserved_index rest) l') as [d|].
      * rewrite IH. subst w1. cbn [sec log]. now rewrite <- app_assoc.
      * destruct IH as (lg & ->). subst w1. cbn [sec log].
        exists ([warning (sec w) (n, cl, ln, cn)] ++ lg)%list.
        now rewrite <- app_assoc.
    + exists [warning (sec w) (n, cl, ln, cn)]. reflexivity.
Qed.

(** Whatever the order of iteration, the loop returns the same list or
    raises. *)
Lemma remove_loop_any_order (ps ps' : list preserved) (indexes : list entry)
      (w : world) (deferred : list entry) :
  Permutation ps ps' ->
  (exists w1, remove_loop ps indexes w = (w1, Return deferred)) ->
  remove_loop ps' indexes w
  = (mkWorld (sec w) (log w ++ map (warning (sec w)) ps'), Return deferred).
Proof.
  intros HP (w1 & E).
  pose proof (remove_loop_remove_all ps indexes w) as H.
  pose proof (remove_loop_remove_all ps' indexes w) as H'.
  rewrite <- (remove_all_permutation _ _ (Permutation_map preserved_index HP))
    in H'.
  destruct (remove_all (map preserved_index ps) indexes) as [d|].
  - rewrite H in E. injection E as _ ->. exact H'.
  - destruct H as (lg & H). rewrite H in E. discriminate.
Qed.

End IterationOrder.

(** ** [split_indexes] on an InnoDB table: the shape of a call *)

Section Orchestration.

Lemma split_indexes_innodb (defer_constraints : bool) (w : world) :
  let table_ddl := extract_create_table (iterable (sec w)) in
  contains "ENGINE=InnoDB" table_ddl = true ->
  split_indexes defer_constraints w
  = match resolver defer_constraints (extract_indexes table_ddl)
            (extract_constraints table_ddl) w with
    | (w1, Return deferred) =>
        format_alter_table table_ddl deferred
          (mkWorld (rewritten (sec w1) table_ddl deferred) (log w1))
    | (w1, Raise e) => (w1, Raise e)
    end.
Proof.
  intros table_ddl H. unfold split_indexes, bind at 1 2, get_iterable at 1.
  unfold set_iterable at 1. cbn [sec log iterable database table].
  rewrite section_eta, world_eta. fold table_ddl. rewrite H. cbn [negb].
  unfold bind at 1. fold (resolver defer_constraints
                            (extract_indexes table_ddl)
                            (extract_constraints table_ddl)).
  destruct (resolver _ _ _ w) as [w1 [deferred|e]]; reflexivity.
Qed.

Lemma format_alter_table_named (table_ddl name : bytes)
      (deferred : list entry) (w : world) :
  find_table_name (splitlines false table_ddl) = Some name ->
  format_alter_table table_ddl deferred w
  = (w, Return (alter_table_text name deferred)).
Proof.
  intros H. unfold format_alter_table, bind, extract_table_name.
  rewrite H. unfold ret at 1. unfold alter_table_text.
  now destruct (map _ deferred).
Qed.

Lemma format_alter_table_unnamed (table_ddl : bytes)
      (deferred : list entry) (w : world) :
  find_table_name (splitlines false table_ddl) = None ->
  format_alter_table table_ddl deferred w
  = (w, Raise (ValueError ("Failed to find table name from DDL: "
                             ++ table_ddl))).
Proof.
  intros H. unfold format_alter_table, bind, extract_table_name.
  now rewrite H.
Qed.

(** The two ways [format_alter_table] ends. *)
Lemma format_alter_table_outcome (table_ddl : bytes) (deferred : list entry)
      (w : world) :
  format_alter_table table_ddl deferred w
  = (w,
     match find_table_name (splitlines false table_ddl) with
     | Some name =>
         Return
           match map strip (map entry_line deferred) with
           | [] => ""
           | clauses =>
               rstrip_commas (join_with nl (alter_template name clauses))
                 ++ ";"
           end
     | None =>
         Raise (ValueError ("Failed to find table name from DDL: "
                              ++ table_ddl))
     end).
Proof.
  destruct (find_table_name (splitlines false table_ddl)) as [name|] eqn:E.
  - rewrite (format_alter_table_named _ name) by exact E.
    unfold alter_table_text. now rewrite map_map.
  - now rewrite format_alter_table_unnamed.
Qed.

End Orchestration.

(** ** The prefix policy of the resolver *)

Section PrefixPolicy.







End PrefixPolicy.

(** ** [format_create_table] *)

Section CreateTableRewrite.





Variable deferred_lines : list bytes.





End CreateTableRewrite.


Lemma format_create_table_loop_nothing (lines : list bytes) :
  forall last before,
    format_create_table_loop [] (last :: before) lines
    = (rev (close_lines (last :: lines)) ++ before)%list.
Proof.
  induction lines as [|q rest IH]; intros last before; [reflexivity|].
  cbn [format_create_table_loop mem_line existsb].
  destruct (startswith q ")") eqn:P.
  all: rewrite IH;
    change (close_lines (last :: q :: rest))
      with ((if startswith q ")" then strip_trailing_comma last else last)
              :: close_lines (q :: rest));
    rewrite P; cbn [rev]; now rewrite <- app_assoc.
Qed.

Lemma close_lines_loop (lines : list bytes) :
  rev (format_create_table_loop [] [] lines) = close_lines lines.
Proof.
  destruct lines as [|l rest]; [reflexivity|].
  cbn [format_create_table_loop mem_line existsb].
  now rewrite format_create_table_loop_nothing, app_nil_r, rev_involutive.
Qed.

Lemma format_create_table_nothing (table_ddl : bytes) :
  format_create_table table_ddl []
  = join (close_lines (splitlines true table_ddl)).
Proof.
  unfold format_create_table, format_create_table_lines. cbn [map].
  now rewrite close_lines_loop.
Qed.



Lemma close_lines_clean (lines : list bytes) :
  closing_lines_clean lines = true -> close_lines lines = lines.
Proof.
  induction lines as [|l rest IH]; [reflexivity|].
  cbn [closing_lines_clean close_lines]. intros H.
  apply andb_prop in H. destruct H as [H1 H2]. rewrite (IH H2).
  destruct rest as [|q rest']; [reflexivity|].
  destruct (startswith q ")"); [|reflexivity].
  apply String.eqb_eq in H1. now rewrite H1.
Qed.

(** ** The clause extractors *)

Section Clauses.
Import Re.

Lemma extract_clauses_lines (cre : regex) (lines : list bytes) :
  map entry_line (extract_clauses cre lines) = filter (matches cre) lines.
Proof.
  induction lines as [|l rest IH]; [reflexivity|].
  cbn [extract_clauses filter]. unfold matches at 1.
  destruct (re_match cre l); cbn [map]; now rewrite IH.
Qed.

Lemma extract_clauses_none (cre : regex) (lines : list bytes) :
  extract_clauses cre lines = [] <-> forallb (fun l => negb (matches cre l)) lines = true.
Proof.
  induction lines as [|l rest IH]; [now split|].
  cbn [extract_clauses forallb]. unfold matches at 1.
  destruct (re_match cre l); cbn [negb andb]; [split; discriminate | exact IH].
Qed.

(** What [\s*] in front of a pattern reads is whitespace. *)
Lemma star_space_reads (k : bytes -> groups -> option groups)
      (res : groups) (fuel : nat) :
  forall s g,
    star_iter (rmatch Space) k fuel s g = Some res ->
    exists ws s', s = ws ++ s' /\ lstrip_by is_space ws = ""
                  /\ k s' g = Some res.
Proof.
  assert (Hm : forall s g kk,
             rmatch Space s g kk
             = match s with
               | String c' s' => if is_space c' then kk s' g else None
               | "" => None
               end) by reflexivity.
  revert Hm. generalize (rmatch Space). intros m Hm.
  induction fuel as [|fuel IH]; intros s g; cbn [star_iter].
  - intros H. exists "", s. auto.
  - rewrite Hm. destruct s as [|c s1].
    + intros H. exists "", "". auto.
    + destruct (is_space c) eqn:Sc.
      * destruct (Nat.ltb _ _).
        -- destruct (star_iter m k fuel s1 g) eqn:E.
           ++ intros [= ->]. destruct (IH _ _ E) as (ws & s' & -> & Hws & Hk).
              exists (String c ws), s'. cbn. rewrite Sc. auto.
           ++ intros H. exists "", (String c s1). auto.
        -- intros H. exists "", (String c s1). auto.
      * intros H. exists "", (String c s1). auto.
Qed.

Lemma lstrip_whitespace_prefix (ws s' : bytes) (c : ascii) (s1 : bytes) :
  lstrip_by is_space ws = "" -> s' = String c s1 -> is_space c = false ->
  lstrip_by is_space (ws ++ s') = s'.
Proof.
  intros Hws -> Hc. induction ws as [|a ws IH]; cbn in *.
  - now rewrite Hc.
  - destruct (is_space a); [auto | discriminate].
Qed.

Lemma rmatch_chr (c : ascii) (s : bytes) (g : groups)
      (k : bytes -> groups -> option groups) (res : groups) :
  rmatch (Chr c) s g k = Some res -> exists s1, s = String c s1.
Proof.
  destruct s as [|c' s1]; cbn; [discriminate|].
  destruct (Ascii.eqb_spec c c') as [->|]; [eauto | discriminate].
Qed.

Lemma rmatch_seq (r1 r2 : regex) (s : bytes) (g : groups)
      (k : bytes -> groups -> option groups) :
  rmatch (Seq r1 r2) s g k = rmatch r1 s g (fun s' g' => rmatch r2 s' g' k).
Proof. reflexivity. Qed.

Lemma rmatch_star (r : regex) (s : bytes) (g : groups)
      (k : bytes -> groups -> option groups) :
  rmatch (Star r) s g k = star_iter (rmatch r) k (String.length s) s g.
Proof. reflexivity. Qed.

Lemma rmatch_opt (r : regex) (s : bytes) (g : groups)
      (k : bytes -> groups -> option groups) :
  rmatch (Opt r) s g k
  = match rmatch r s g k with Some res => Some res | None => k s g end.
Proof. reflexivity. Qed.

Lemma rmatch_lit_head (c : ascii) (lit : bytes) (r : regex) (s : bytes)
      (g : groups) (k : bytes -> groups -> option groups) (res : groups) :
  rmatch (Seq (Lit (String c lit)) r) s g k = Some res ->
  exists s1, s = String c s1.
Proof.
  change (Lit (String c lit)) with (Seq (Chr c) (Lit lit)).
  rewrite !rmatch_seq. apply rmatch_chr.
Qed.

(** A line of the index shape starts, after its leading whitespace,
    with [U] or [K]; one of the constraint shape, with [C]. *)
Lemma key_line_head (line : bytes) :
  matches KEY_CRE line = true ->
  exists s1, lstrip_by is_space line = String "U" s1
             \/ lstrip_by is_space line = String "K" s1.
Proof.
  unfold matches, re_match, KEY_CRE.
  destruct (rmatch _ line [] _) as [res|] eqn:E; [intros _ | discriminate].
  rewrite rmatch_seq, rmatch_star in E. apply star_space_reads in E.
  destruct E as (ws & s' & -> & Hws & E).
  rewrite rmatch_seq, rmatch_opt in E.
  match type of E with
  | match ?a with _ => _ end = _ => destruct a eqn:EU
  end.
  - apply rmatch_lit_head in EU. destruct EU as (s1 & ->).
    exists s1. left. now eapply lstrip_whitespace_prefix.
  - apply rmatch_lit_head in E. destruct E as (s1 & ->).
    exists s1. right. now eapply lstrip_whitespace_prefix.
Qed.

Lemma constraint_line_head (line : bytes) :
  matches CONSTRAINT_CRE line = true ->
  exists s1, lstrip_by is_space line = String "C" s1.
Proof.
  unfold matches, re_match, CONSTRAINT_CRE.
  destruct (rmatch _ line [] _) as [res|] eqn:E; [intros _ | discriminate].
  rewrite rmatch_seq, rmatch_star in E. apply star_space_reads in E.
  destruct E as (ws & s' & -> & Hws & E).
  apply rmatch_lit_head in E. destruct E as (s1 & ->).
  exists s1. now eapply lstrip_whitespace_prefix.
Qed.

(** No line is both an index clause and a constraint clause. *)
Lemma key_line_not_constraint (line : bytes) :
  matches KEY_CRE line = true -> matches CONSTRAINT_CRE line = false.
Proof.
  intros HK. destruct (matches CONSTRAINT_CRE line) eqn:HC; [|reflexivity].
  apply key_line_head in HK. apply constraint_line_head in HC.
  destruct HK as (s1 & [E|E]), HC as (s2 & E'); rewrite E in E';
    discriminate.
Qed.


Lemma extract_indexes_lines (table_ddl : bytes) :
  map entry_line (extract_indexes table_ddl)
  = filter (matches KEY_CRE) (splitlines true table_ddl).
Proof. apply extract_clauses_lines. Qed.

Lemma extract_constraints_lines (table_ddl : bytes) :
  map entry_line (extract_constraints table_ddl)
  = filter (matches CONSTRAINT_CRE) (splitlines true table_ddl).
Proof. apply extract_clauses_lines. Qed.


End Clauses.

(** ** The texts handed to the column parser

    The reader of [parse_columns] is modelled without its line-break
    transitions.  None is ever taken: the texts it is given are groups
    captured in a line of [splitlines], each followed in that line by a
    character of the pattern, and so they hold no line break. *)

Section CapturedGroups.
Import Re.

Lemma suffix_refl (s : bytes) : suffix s s.
Proof. now exists "". Qed.

Lemma suffix_trans (s1 s2 s3 : bytes) :
  suffix s1 s2 -> suffix s2 s3 -> suffix s1 s3.
Proof.
  intros (p & ->) (q & ->). exists (q ++ p). now rewrite append_assoc.
Qed.

Lemma suffix_tail (c : ascii) (s : bytes) : suffix s (String c s).
Proof. now exists (String c ""). Qed.

(** A pattern without groups hands the groups it was given, and some
    suffix of its input, to its continuation. *)
Lemma star_iter_no_group (m : matcher)
      (k : bytes -> groups -> option groups) (res : groups) :
  (forall s g k', m s g k' = Some res ->
                  exists s', suffix s' s /\ k' s' g = Some res) ->
  forall fuel s g,
    star_iter m k fuel s g = Some res ->
    exists s', suffix s' s /\ k s' g = Some res.
Proof.
  intros Hm. induction fuel as [|fuel IH]; intros s g; cbn [star_iter].
  - intros H. exists s. split; [apply suffix_refl | exact H].
  - destruct (m s g _) as [res0|] eqn:E.
    + intros [= ->]. apply Hm in E. destruct E as (s1 & Hs1 & E).
      destruct (Nat.ltb _ _); [|discriminate].
      apply IH in E. destruct E as (s2 & Hs2 & E).
      exists s2. split; [eapply suffix_trans; eassumption | exact E].
    + intros H. exists s. split; [apply suffix_refl | exact H].
Qed.

Lemma rmatch_no_group (r : regex) :
  has_group r = false ->
  forall s g k res,
    rmatch r s g k = Some res ->
    exists s', suffix s' s /\ k s' g = Some res.
Proof.
  induction r as [| c | | | | r1 IH1 r2 IH2 | r1 IH1 r2 IH2 | r1 IH1
                  | name r1 IH1];
    cbn [has_group]; intros Hg s g k res; cbn [rmatch].
  - intros H. exists s. split; [apply suffix_refl | exact H].
  - destruct s as [|c' s1]; [discriminate|].
    destruct (Ascii.eqb c c'); [|discriminate].
    intros H. exists s1. split; [apply suffix_tail | exact H].
  - destruct s as [|c' s1]; [discriminate|].
    destruct (Ascii.eqb c' LF); [discriminate|].
    intros H. exists s1. split; [apply suffix_tail | exact H].
  - destruct s as [|c' s1]; [discriminate|].
    destruct (is_space c'); [|discriminate].
    intros H. exists s1. split; [apply suffix_tail | exact H].
  - destruct (_ || _); [|discriminate].
    intros H. exists s. split; [apply suffix_refl | exact H].
  - apply orb_false_elim in Hg. destruct Hg as [Hg1 Hg2].
    intros H. apply (IH1 Hg1) in H. destruct H as (s1 & Hs1 & H).
    apply (IH2 Hg2) in H. destruct H as (s2 & Hs2 & H).
    exists s2. split; [eapply suffix_trans; eassumption | exact H].
  - apply orb_false_elim in Hg. destruct Hg as [Hg1 Hg2].
    destruct (rmatch r1 s g k) as [res0|] eqn:E.
    + intros [= ->]. now apply (IH1 Hg1) in E.
    + intros H. now apply (IH2 Hg2) in H.
  - apply star_iter_no_group. intros s0 g0 k'. apply (IH1 Hg).
  - discriminate.
Qed.

Lemma rmatch_group (name : bytes) (r : regex) :
  has_group r = false ->
  forall s g k res,
    rmatch (Group name r) s g k = Some res ->
    exists s', suffix s' s /\ k s' ((name, consumed s s') :: g) = Some res.
Proof.
  intros Hg s g k res H. cbn [rmatch] in H.
  now apply (rmatch_no_group r Hg) in H.
Qed.

Lemma length_append (a b : bytes) :
  String.length (a ++ b) = String.length a + String.length b.
Proof. induction a; cbn; congruence. Qed.

Lemma consumed_app (p s' : bytes) : consumed (p ++ s') s' = p.
Proof.
  unfold consumed. rewrite length_append.
  replace (String.length p + String.length s' - String.length s')
    with (String.length p) by lia.
  induction p as [|c p IH]; cbn.
  - now destruct s'.
  - now rewrite IH.
Qed.

(** Lines of [splitlines]: a body without line break, then at most one
    terminator. *)
Lemma no_break_app (a b : bytes) :
  no_break (a ++ b) = no_break a && no_break b.
Proof.
  induction a as [|c a IH]; cbn; [reflexivity|].
  rewrite IH. now rewrite andb_assoc.
Qed.

Lemma splitlines_shape_aux (n : nat) :
  forall s line,
    String.length s <= n -> In line (splitlines true s) ->
    exists body term,
      line = body ++ term /\ no_break body = true /\ only_breaks term = true.
Proof.
  induction n as [|n IH]; intros s line Hn.
  - destruct s; [contradiction | cbn in Hn; lia].
  - destruct s as [|c s1]; [contradiction|].
    cbn in Hn. cbn [splitlines line_end].
    destruct (Ascii.eqb_spec c LF) as [->|HLF].
    + intros [<-|H]; [now exists "", (String LF "") | eapply IH; [|exact H]; lia].
    + destruct (Ascii.eqb_spec c CR) as [->|HCR].
      * destruct s1 as [|c' s2].
        -- intros [<-|[]]. now exists "", (String CR "").
        -- destruct (Ascii.eqb_spec c' LF) as [->|HLF'].
           ++ intros [<-|H]; [now exists "", (String CR (String LF ""))|].
              eapply IH; [|exact H]. cbn in Hn. lia.
           ++ intros [<-|H]; [now exists "", (String CR "")|].
              eapply IH; [|exact H]. lia.
      * assert (Hc : is_break c = false).
        { unfold is_break. destruct (Ascii.eqb_spec c LF); [contradiction|].
          destruct (Ascii.eqb_spec c CR); [contradiction | reflexivity]. }
        destruct (splitlines true s1) as [|l ls] eqn:E.
        -- intros [<-|[]]. exists (String c ""), "". cbn. now rewrite Hc.
        -- intros [<-|H].
           ++ destruct (IH s1 l ltac:(lia)) as (body & term & -> & Hb & Ht);
                [rewrite E; now left|].
              exists (String c body), term. cbn. now rewrite Hc, Hb.
           ++ apply (IH s1 line ltac:(lia)). rewrite E. now right.
Qed.

Lemma splitlines_shape (s line : bytes) :
  In line (splitlines true s) ->
  exists body term,
    line = body ++ term /\ no_break body = true /\ only_breaks term = true.
Proof. apply (splitlines_shape_aux (String.length s)). lia. Qed.

(** What comes before a character that is no line break lies in the
    body. *)
Lemma before_body_char (a : bytes) (c : ascii) (b body term : bytes) :
  a ++ String c b = body ++ term ->
  is_break c = false -> only_breaks term = true -> no_break body = true ->
  no_break a = true.
Proof.
  revert body. induction a as [|x a IH]; intros body E Hc Ht Hb;
    [reflexivity|].
  destruct body as [|y body]; cbn in E.
  - subst term. exfalso. clear IH Hb.
    cbn in Ht. apply andb_prop in Ht. destruct Ht as [_ Ht].
    induction a as [|z a IHa]; cbn in Ht.
    + rewrite Hc in Ht. discriminate.
    + apply andb_prop in Ht. destruct Ht as [_ Ht]. auto.
  - injection E as <- E. cbn in Hb |- *.
    apply andb_prop in Hb. destruct Hb as [Hx Hb]. rewrite Hx.
    cbn. eapply IH; eassumption.
Qed.

Lemma followed_no_break (ddl line v : bytes) :
  In line (splitlines true ddl) -> followed_in line v -> no_break v = true.
Proof.
  intros Hl (pre & c & rest & E & Hc).
  destruct (splitlines_shape _ _ Hl) as (body & term & -> & Hb & Ht).
  rewrite <- append_assoc in E. symmetry in E.
  assert (H : no_break (pre ++ v) = true)
    by (eapply before_body_char; eauto).
  rewrite no_break_app in H. now apply andb_prop in H.
Qed.

Lemma suffix_followed (line s s' : bytes) (c : ascii) (s1 : bytes) :
  suffix s line -> suffix s' s -> s' = String c s1 -> is_break c = false ->
  followed_in line (consumed s s').
Proof.
  intros (q & ->) (p & ->) -> Hc. rewrite consumed_app.
  exists q, c, s1. split; [reflexivity | exact Hc].
Qed.

Ltac peel H s Hs :=
  rewrite rmatch_seq in H;
  apply rmatch_no_group in H; [|reflexivity];
  destruct H as (s & Hs & H).

Ltac peel_group H s Hs :=
  rewrite rmatch_seq in H;
  apply rmatch_group in H; [|reflexivity];
  destruct H as (s & Hs & H).

Lemma key_groups (line : bytes) (m : groups) :
  re_match KEY_CRE line = Some m ->
  followed_in line (group m "name") /\ followed_in line (group m "columns").
Proof.
  unfold re_match, KEY_CRE. intros H.
  peel H s1 Hs1. peel H s2 Hs2. peel H s3 Hs3.
  peel_group H s4 Hs4.
  pose proof H as H4. apply rmatch_lit_head in H4. destruct H4 as (t4 & E4).
  peel H s5 Hs5. peel_group H s6 Hs6.
  pose proof H as H6. rewrite rmatch_seq in H6. apply rmatch_chr in H6.
  destruct H6 as (t6 & E6).
  apply rmatch_no_group in H; [|reflexivity].
  destruct H as (s7 & Hs7 & [= <-]). cbn [group String.eqb Ascii.eqb Bool.eqb].
  assert (L3 : suffix s3 line) by eauto using suffix_trans.
  assert (L5 : suffix s5 line) by eauto using suffix_trans.
  split; eapply suffix_followed; eauto.
Qed.

Lemma constraint_groups (line : bytes) (m : groups) :
  re_match CONSTRAINT_CRE line = Some m ->
  followed_in line (group m "name") /\ followed_in line (group m "columns").
Proof.
  unfold re_match, CONSTRAINT_CRE. intros H.
  peel H s1 Hs1. peel H s2 Hs2.
  peel_group H s3 Hs3.
  pose proof H as H3. apply rmatch_lit_head in H3. destruct H3 as (t3 & E3).
  peel H s4 Hs4.
  peel_group H s5 Hs5.
  pose proof H as H5.
  change (Lit ") REFERENCES") with (Seq (Chr ")") (Lit " REFERENCES")) in H5.
  rewrite rmatch_seq in H5. apply rmatch_chr in H5.
  destruct H5 as (t5 & E5).
  apply rmatch_no_group in H; [|reflexivity].
  destruct H as (s6 & Hs6 & [= <-]). cbn [group String.eqb Ascii.eqb Bool.eqb].
  assert (L2 : suffix s2 line) by eauto using suffix_trans.
  assert (L4 : suffix s4 line) by eauto using suffix_trans.
  split; eapply suffix_followed; eauto.
Qed.

(** Every text the clause extractors give to [parse_columns] is free of
    line breaks. *)
Lemma parsed_texts_no_line_break (cre : regex) (table_ddl line : bytes)
      (m : groups) :
  cre = KEY_CRE \/ cre = CONSTRAINT_CRE ->
  In line (splitlines true table_ddl) ->
  re_match cre line = Some m ->
  no_break (group m "name") = true /\ no_break (group m "columns") = true.
Proof.
  intros Hcre Hl Hm.
  assert (H : followed_in line (group m "name")
              /\ followed_in line (group m "columns"))
    by (destruct Hcre; subst cre; [apply key_groups | apply constraint_groups];
        exact Hm).
  destruct H as [H1 H2]. split; eapply followed_no_break; eassumption.
Qed.

End CapturedGroups.

(** ** [split_indexes] on an InnoDB table: complete runs *)

Section Runs.




Lemma preserve_loop_indexes (indexes constraints : list entry) (x : preserved) :
  In x (preserve_loop indexes constraints []) ->
  In (preserved_index x) indexes.
Proof.
  intros H. apply preserve_loop_In in H.
  destruct H as [[]|(c & i & _ & F & ->)].
  rewrite preserved_index_for. unfold first_prefix_index in F.
  apply find_some in F. destruct F as [F _].
  eapply Permutation_in; [symmetry; apply sorted_perm | exact F].
Qed.


(** With nothing recorded, every index is deferred and nothing is
    logged. *)
Lemma split_indexes_nothing_preserved (w : world) :
  let table_ddl := extract_create_table (iterable (sec w)) in
  let indexes := extract_indexes table_ddl in
  contains "ENGINE=InnoDB" table_ddl = true ->
  preserve_loop indexes (extract_constraints table_ddl) [] = [] ->
  split_indexes false w
  = format_alter_table table_ddl indexes
      (mkWorld (rewritten (sec w) table_ddl indexes) (log w)).
Proof.
  intros table_ddl indexes HI Hp.
  rewrite split_indexes_innodb by exact HI.
  fold table_ddl indexes. unfold resolver. cbn [negb]. rewrite Hp.
  reflexivity.
Qed.

(** A run with [defer_constraints] true. *)
Lemma split_indexes_deferring (w : world) :
  let table_ddl := extract_create_table (iterable (sec w)) in
  let deferred :=
    (extract_indexes table_ddl ++ extract_constraints table_ddl)%list in
  contains "ENGINE=InnoDB" table_ddl = true ->
  split_indexes true w
  = format_alter_table table_ddl deferred
      (mkWorld (rewritten (sec w) table_ddl deferred) (log w)).
Proof.
  intros table_ddl deferred HI.
  rewrite split_indexes_innodb by exact HI. reflexivity.
Qed.

End Runs.

(** ** What is deferred *)

Section Deferred.
Import Re.







End Deferred.

(** ** Whole calls *)

Section Calls.
Import Re.




(** C6 (as amended).  An InnoDB table without index and constraint
    clauses: [split_indexes] returns empty bytes when the table name is
    found (and raises otherwise) and logs nothing; the patched CREATE
    TABLE is the DDL with every line that is followed by a line
    starting with [)] stripped of its trailing whitespace and commas
    and ended by a line feed; it is the DDL itself, byte for byte, when
    those lines are already so. *)
Theorem no_clauses_nothing_deferred (defer_constraints : bool) (w : world) :
  let table_ddl := extract_create_table (iterable (sec w)) in
  contains "ENGINE=InnoDB" table_ddl = true ->
  extract_indexes table_ddl = [] ->
  extract_constraints table_ddl = [] ->
  split_indexes defer_constraints w
  = (mkWorld
       (mkSection
          (splitlines true
             (replace (join (iterable (sec w))) table_ddl
                      (format_create_table table_ddl [])))
          (database (sec w)) (table (sec w)))
       (log w),
     match find_table_name (splitlines false table_ddl) with
     | Some _ => Return ""
     | None =>
         Raise (ValueError ("Failed to find table name from DDL: "
                              ++ table_ddl))
     end)
  /\ format_create_table table_ddl []
     = join (close_lines (splitlines true table_ddl))
  /\ (closing_lines_clean (splitlines true table_ddl) = true ->
      format_create_table table_ddl [] = table_ddl).
Proof.
  intros table_ddl HI Hi Hc. split.
  - destruct defer_constraints.
    + rewrite split_indexes_deferring by exact HI. fold table_ddl.
      rewrite Hi, Hc. cbn [app]. now rewrite format_alter_table_outcome.
    + rewrite split_indexes_nothing_preserved; fold table_ddl.
      * rewrite Hi. now rewrite format_alter_table_outcome.
      * exact HI.
      * now rewrite Hi, Hc.
  - split; [apply format_create_table_nothing|].
    intros H. rewrite format_create_table_nothing, (close_lines_clean _ H).
    apply join_splitlines.
Qed.

End Calls.

(** ** The properties on the example sections *)

Section OnExamples.











(** C6, counterexample.  A table without index and constraint clauses
    whose last column line ends in a blank, or whose lines end in
    CR LF: the patched CREATE TABLE is not the DDL.  And when the table
    name is written without backticks the call does not return. *)
Lemma no_clauses_counterexample :
  (let w := Examples.no_clauses_trailing_blank in
   contains "ENGINE=InnoDB" (ddl_of w) = true
   /\ extract_indexes (ddl_of w) = []
   /\ extract_constraints (ddl_of w) = []
   /\ format_create_table (ddl_of w) [] <> ddl_of w
   /\ format_create_table (ddl_of w) []
      = join [ "CREATE TABLE `t` (" ++ nl; "  `a` INT" ++ nl;
               ") ENGINE=InnoDB;" ++ nl ])
  /\ (let crlf := String CR nl in
      let ddl := join [ "CREATE TABLE `t` (" ++ crlf; "  `a` INT" ++ crlf;
                        ") ENGINE=InnoDB;" ++ crlf ] in
      extract_indexes ddl = [] /\ extract_constraints ddl = []
      /\ format_create_table ddl [] <> ddl)
  /\ (let w := mkWorld (mkSection [ "CREATE TABLE t (" ++ nl;
                                    "  `a` INT" ++ nl;
                                    ") ENGINE=InnoDB;" ++ nl ] "db" "t") [] in
      contains "ENGINE=InnoDB" (ddl_of w) = true
      /\ extract_indexes (ddl_of w) = []
      /\ extract_constraints (ddl_of w) = []
      /\ snd (split_indexes false w) <> Return "").
Proof.
  repeat split; try reflexivity; vm_compute; discriminate.
Qed.

Lemma no_clauses_nothing_deferred_witness :
  let w := Examples.no_clauses in
  closing_lines_clean (splitlines true (ddl_of w)) = true
  /\ split_indexes false w = (w, Return "")
  /\ format_create_table (ddl_of w) [] = ddl_of w.
Proof.
  intros w. split; [reflexivity|].
  destruct (no_clauses_nothing_deferred false w) as (E & _ & Hsame);
    try reflexivity.
  split; [rewrite E; reflexivity | apply Hsame; reflexivity].
Defined.

(** The prefix scenario as a whole call: the index on (a) is deferred,
    the one on (a, b, c) stays in the CREATE TABLE, and one warning is
    logged. *)
Example short_and_long_run :
  split_indexes false Examples.short_and_long
  = (mkWorld
       (mkSection
          [ "CREATE TABLE `t` (" ++ nl;
            "  `a` int(11) NOT NULL," ++ nl;
            "  `b` int(11) NOT NULL," ++ nl;
            "  `c` int(11) NOT NULL," ++ nl;
            "  KEY `idx_abc` (`a`,`b`,`c`)," ++ nl;
            "  CONSTRAINT `fk_ab` FOREIGN KEY (`a`, `b`) REFERENCES `q` (`x`, `y`)"
              ++ nl;
            ") ENGINE=InnoDB;" ++ nl ]
          "db" "t")
       [ Warn "Not deferring %s.%s index `%s` - used by constraint `%s`"
              ["db"; "t"; "idx_abc"; "fk_ab"] ],
     Return
       (join_with nl
          [ "--";
            "-- InnoDB Fast Index Creation (generated by dbsake)";
            "--";
            "";
            "ALTER TABLE `t`";
            "  ADD KEY `idx_a` (`a`);" ])).
Proof. reflexivity. Qed.

(** The section with two foreign keys on one index: the second removal
    of the index finds it gone and the call raises the ValueError of
    [list.remove], the section being as it was. *)
Example shared_index_run :
  split_indexes false Examples.shared_index
  = (mkWorld (sec Examples.shared_index)
       [ Warn "Not deferring %s.%s index `%s` - used by constraint `%s`"
              ["db"; "t"; "idx_ab"; "fk_a"];
         Warn "Not deferring %s.%s index `%s` - used by constraint `%s`"
              ["db"; "t"; "idx_ab"; "fk_ab"] ],
     Raise (ValueError "list.remove(x): x not in list")).
Proof. reflexivity. Qed.

End OnExamples.

(** * Further properties of the module *)

(** ** The resolver: what is found, recorded and removed *)

Section ResolverFacts.

Lemma firstn_is_prefix {A : Type} (c l : list A) :
  firstn (length c) l = c <-> exists rest, l = (c ++ rest)%list.
Proof.
  split.
  - intros H. exists (skipn (length c) l).
    rewrite <- H at 1. symmetry. apply firstn_skipn.
  - intros (rest & ->). revert rest.
    induction c as [|x c IH]; intros rest; cbn; [reflexivity|].
    now rewrite IH.
Qed.

(** X1.  The search for a prefix index is complete and sound: it finds
    nothing exactly when no extracted index has the constraint's
    columns as its leading columns, and what it finds is one of the
    indexes, with the constraint's columns in front. *)
Theorem prefix_search_complete (indexes : list entry) (_columns : list bytes) :
  (first_prefix_index indexes _columns = None
   <-> forall i rest, In i indexes ->
                      entry_columns i <> (_columns ++ rest)%list)
  /\ (forall i, first_prefix_index indexes _columns = Some i ->
                In i indexes
                /\ exists rest, entry_columns i = (_columns ++ rest)%list).
Proof.
  rewrite first_prefix_index_pick. split; [split|].
  - intros H i rest Hi E.
    pose proof (pick_none _ _ _ _ H i Hi) as P.
    assert (T : is_prefix_index _columns i = true).
    { apply is_prefix_index_spec, firstn_is_prefix. eauto. }
    congruence.
  - intros H.
    destruct (pick columns_length (is_prefix_index _columns) indexes)
      as [i|] eqn:P; [exfalso | reflexivity].
    apply pick_some in P. destruct P as (pre & post & -> & Hi & _).
    apply is_prefix_index_spec, firstn_is_prefix in Hi.
    destruct Hi as (rest & Hi).
    apply (H i rest); [apply in_elt | exact Hi].
  - intros i P. apply pick_some in P.
    destruct P as (pre & post & -> & Hi & _).
    split; [apply in_elt|].
    now apply is_prefix_index_spec, firstn_is_prefix in Hi.
Qed.

Lemma set_add_length (x : preserved) (l : list preserved) :
  length (set_add preserved_eq_dec x l) <= S (length l).
Proof.
  induction l as [|y l IH]; cbn; [lia|].
  destruct (preserved_eq_dec x y); cbn; lia.
Qed.

Lemma preserve_loop_length (indexes constraints : list entry) :
  forall acc,
    length (preserve_loop indexes constraints acc)
    <= length acc + length constraints.
Proof.
  induction constraints as [|c rest IH]; intros acc; cbn [preserve_loop length];
    [lia|].
  etransitivity; [apply IH|].
  destruct (first_prefix_index indexes (entry_columns c)); [|lia].
  pose proof (set_add_length
                (entry_name e, entry_columns e, entry_line e, entry_name c)
                acc).
  lia.
Qed.

(** X2.  What the search loop records is a set: no tuple twice, at most
    one tuple for each constraint, and every tuple made of an extracted
    index and the name of a constraint. *)
Theorem preserved_set_bounds (indexes constraints : list entry) :
  let preserved_indexes := preserve_loop indexes constraints [] in
  NoDup preserved_indexes
  /\ length preserved_indexes <= length constraints
  /\ forall index_name columns line constraint,
      In (index_name, columns, line, constraint) preserved_indexes ->
      In (index_name, columns, line) indexes
      /\ In constraint (map entry_name constraints).
Proof.
  intros preserved_indexes. split; [|split].
  - apply preserve_loop_NoDup. constructor.
  - apply (preserve_loop_length indexes constraints []).
  - intros n cl ln cn H. split.
    + apply (preserve_loop_indexes indexes constraints (n, cl, ln, cn) H).
    + apply preserve_loop_In in H.
      destruct H as [[]|(c & i & Hc & _ & E)].
      injection E as _ _ _ ->. now apply in_map.
Qed.

Lemma list_remove_permutation (x : entry) (l l' : list entry) :
  list_remove x l = Some l' -> Permutation l (x :: l').
Proof.
  revert l'. induction l as [|y l IH]; cbn; [discriminate|]. intros l'.
  destruct (entry_eq_dec x y) as [->|N].
  - intros [= <-]. reflexivity.
  - destruct (list_remove x l) as [l0|]; [|discriminate].
    intros [= <-]. rewrite (IH _ eq_refl). apply perm_swap.
Qed.

Lemma remove_all_permutation_app (xs : list entry) :
  forall l d, remove_all xs l = Some d -> Permutation l (xs ++ d)%list.
Proof.
  induction xs as [|x xs IH]; intros l d; cbn.
  - intros [= <-]. reflexivity.
  - destruct (list_remove x l) as [l'|] eqn:R; [|discriminate].
    intros H. rewrite (list_remove_permutation _ _ _ R).
    constructor. now apply IH.
Qed.

(** X3.  The removal loop loses no index: when it returns, the indexes
    it was given are, up to order, the recorded ones and the ones it
    returns for deferral; the section is untouched and one warning is
    logged for each recorded tuple. *)
Theorem removal_conserves_indexes (preserved_indexes : list preserved)
        (indexes deferred : list entry) (w w' : world) :
  remove_loop preserved_indexes indexes w = (w', Return deferred) ->
  Permutation indexes (map preserved_index preserved_indexes ++ deferred)%list
  /\ length indexes = length preserved_indexes + length deferred
  /\ sec w' = sec w
  /\ log w' = (log w ++ map (warning (sec w)) preserved_indexes)%list.
Proof.
  intros R.
  pose proof (remove_loop_remove_all preserved_indexes indexes w) as H.
  destruct (remove_all (map preserved_index preserved_indexes) indexes)
    as [d|] eqn:E.
  - rewrite H in R. injection R as <- <-.
    pose proof (remove_all_permutation_app _ _ _ E) as P.
    split; [exact P|]. split; [|split; reflexivity].
    apply Permutation_length in P.
    now rewrite length_app, length_map in P.
  - destruct H as (lg & H). rewrite H in R. discriminate.
Qed.

End ResolverFacts.

(** ** What a call to [split_indexes] leaves alone *)

Section Frame.

Lemma split_indexes_not_innodb_shape (defer_constraints : bool) (w : world) :
  contains "ENGINE=InnoDB" (extract_create_table (iterable (sec w))) = false ->
  split_indexes defer_constraints w
  = (mkWorld (sec w)
       (log w ++ [Debug "%s.%s is not an innodb table. Skipping index rewrite."
                        [database (sec w); table (sec w)]]),
     Return "").
Proof.
  intros H. unfold split_indexes, bind, get_iterable, set_iterable.
  cbn [sec log iterable database table]. rewrite H. cbn [negb].
  unfold get_section, debug, ret. cbn [sec log].
  now rewrite section_eta.
Qed.

(** X5.  Whatever its arguments and however it ends, a call keeps the
    [database] and [table] of the section, only adds records to the
    log, and either leaves the lines of the section as they were or
    replaces them by the lines of the section text with a patched
    CREATE TABLE put in place of the extracted one; it raises only
    ValueError, and when the ValueError is that of [list.remove] the
    lines are as they were. *)
Theorem split_indexes_frame (defer_constraints : bool) (w : world) :
  let table_ddl := extract_create_table (iterable (sec w)) in
  let w' := fst (split_indexes defer_constraints w) in
  database (sec w') = database (sec w)
  /\ table (sec w') = table (sec w)
  /\ (exists lg, log w' = (log w ++ lg)%list)
  /\ (iterable (sec w') = iterable (sec w)
      \/ exists deferred,
          iterable (sec w')
          = splitlines true
              (replace (join (iterable (sec w))) table_ddl
                       (format_create_table table_ddl deferred)))
  /\ (snd (split_indexes defer_constraints w)
      = Raise (ValueError "list.remove(x): x not in list") ->
      iterable (sec w') = iterable (sec w)).
Proof.
  intros table_ddl w'. subst w'.
  destruct (contains "ENGINE=InnoDB" table_ddl) eqn:HI.
  - destruct defer_constraints;
      [rewrite (split_indexes_deferring w HI)
      |rewrite (split_indexes_innodb false w HI); unfold resolver; cbn [negb]];
      fold table_ddl.
    + rewrite format_alter_table_outcome. cbn [fst snd sec log].
      unfold rewritten. cbn [database table iterable].
      split; [reflexivity|]. split; [reflexivity|].
      split; [exists []; now rewrite app_nil_r|].
      split; [right; eauto|].
      destruct (find_table_name _); discriminate.
    + destruct (remove_loop_cases
                  (preserve_loop (extract_indexes table_ddl)
                                 (extract_constraints table_ddl) [])
                  (extract_indexes table_ddl) w)
        as [(d & E & _)|(lg & E)]; rewrite E.
      * rewrite format_alter_table_outcome. cbn [fst snd sec log].
        unfold rewritten. cbn [database table iterable].
        split; [reflexivity|]. split; [reflexivity|].
        split; [eauto|]. split; [right; eauto|].
        destruct (find_table_name _); discriminate.
      * cbn [fst snd sec log]. repeat split; eauto.
  - rewrite (split_indexes_not_innodb_shape defer_constraints w HI).
    cbn [fst snd sec log]. repeat split; eauto.
Qed.

End Frame.

(** ** [parse_columns] *)

Section ParseColumns.
Import Csv.









Lemma process_char_started (r : reader) (c : ascii) :
  st (process_char r c) <> START_RECORD.
Proof.
  unfold process_char, add_char.
  destruct (st r);
    repeat match goal with
           | |- context [if ?b then _ else _] => destruct b
           end; discriminate.
Qed.

Lemma process_started (s : bytes) :
  forall r, st r <> START_RECORD -> st (process r s) <> START_RECORD.
Proof.
  induction s as [|c s IH]; intros r H; cbn; [exact H|].
  apply IH, process_char_started.
Qed.

(** A text that is not empty has a first field. *)
Lemma parse_columns_first_field (value : bytes) :
  value <> "" -> parse_columns value <> [].
Proof.
  destruct value as [|c value]; [contradiction|]. intros _.
  unfold parse_columns, read_row. cbn [process].
  pose proof (process_started value _
                (process_char_started (mkReader START_RECORD "" []) c)) as H.
  unfold end_of_line. destruct (st (process _ value)); [contradiction| | | |];
    unfold save_field; intros E; apply (f_equal (@length _)) in E;
    rewrite length_rev in E; discriminate.
Qed.

End ParseColumns.

(** ** The shapes the patterns accept *)

Section PatternShapes.
Import Re.

Lemma rmatch_lit (lit : bytes) :
  forall s g k res,
    rmatch (Lit lit) s g k = Some res ->
    exists s1, s = lit ++ s1 /\ k s1 g = Some res.
Proof.
  induction lit as [|c lit IH]; intros s g k res H.
  - exists s. split; [reflexivity | exact H].
  - cbn [Lit] in H. rewrite rmatch_seq in H.
    pose proof H as H1. apply rmatch_chr in H1. destruct H1 as (s1 & ->).
    cbn [rmatch] in H. rewrite Ascii.eqb_refl in H.
    apply IH in H. destruct H as (s2 & -> & H).
    exists s2. split; [reflexivity | exact H].
Qed.

Lemma rmatch_lit_seq (lit : bytes) (r : regex) (s : bytes) (g : groups)
      (k : bytes -> groups -> option groups) (res : groups) :
  rmatch (Seq (Lit lit) r) s g k = Some res ->
  exists s1, s = lit ++ s1 /\ rmatch r s1 g k = Some res.
Proof. rewrite rmatch_seq. apply rmatch_lit. Qed.

Lemma prefix_append (p s : bytes) : String.prefix p (p ++ s) = true.
Proof.
  induction p as [|c p IH]; cbn.
  - now destruct s.
  - destruct (Ascii.ascii_dec c c); [exact IH | contradiction].
Qed.

(** A pattern without groups reads at least [min_len] characters. *)
Lemma rmatch_no_group_len (r : regex) :
  has_group r = false ->
  forall s g k res,
    rmatch r s g k = Some res ->
    exists s', suffix s' s
               /\ String.length s' + min_len r <= String.length s
               /\ k s' g = Some res.
Proof.
  induction r as [| c | | | | r1 IH1 r2 IH2 | r1 IH1 r2 IH2 | r1 IH1
                  | name r1 IH1];
    cbn [has_group min_len]; intros Hg s g k res.
  - intros H. exists s. split; [apply suffix_refl|]. split; [lia | exact H].
  - cbn [rmatch]. destruct s as [|c' s1]; [discriminate|].
    destruct (Ascii.eqb c c'); [|discriminate].
    intros H. exists s1. split; [apply suffix_tail|].
    split; [cbn; lia | exact H].
  - cbn [rmatch]. destruct s as [|c' s1]; [discriminate|].
    destruct (Ascii.eqb c' LF); [discriminate|].
    intros H. exists s1. split; [apply suffix_tail|].
    split; [cbn; lia | exact H].
  - cbn [rmatch]. destruct s as [|c' s1]; [discriminate|].
    destruct (is_space c'); [|discriminate].
    intros H. exists s1. split; [apply suffix_tail|].
    split; [cbn; lia | exact H].
  - cbn [rmatch]. destruct (_ || _); [|discriminate].
    intros H. exists s. split; [apply suffix_refl|]. split; [lia | exact H].
  - apply orb_false_elim in Hg. destruct Hg as [Hg1 Hg2].
    rewrite rmatch_seq. intros H.
    apply (IH1 Hg1) in H. destruct H as (s1 & Hs1 & L1 & H).
    apply (IH2 Hg2) in H. destruct H as (s2 & Hs2 & L2 & H).
    exists s2. split; [eapply suffix_trans; eassumption|].
    split; [lia | exact H].
  - apply orb_false_elim in Hg. destruct Hg as [Hg1 Hg2].
    cbn [rmatch]. destruct (rmatch r1 s g k) as [res0|] eqn:E.
    + intros [= ->]. apply (IH1 Hg1) in E.
      destruct E as (s1 & Hs1 & L1 & E). exists s1.
      split; [exact Hs1|]. split; [lia | exact E].
    + intros H. apply (IH2 Hg2) in H.
      destruct H as (s1 & Hs1 & L1 & H). exists s1.
      split; [exact Hs1|]. split; [lia | exact H].
  - intros H. apply (rmatch_no_group (Star r1) Hg) in H.
    destruct H as (s1 & Hs1 & H). exists s1.
    split; [exact Hs1|]. split; [|exact H].
    destruct Hs1 as (p & ->). rewrite length_append. lia.
  - discriminate.
Qed.

(** What a group captures is what its pattern read, at least [min_len]
    characters of it. *)
Lemma rmatch_group_len (name : bytes) (r : regex) :
  has_group r = false ->
  forall s g k res,
    rmatch (Group name r) s g k = Some res ->
    exists v s', s = v ++ s' /\ min_len r <= String.length v
                 /\ k s' ((name, v) :: g) = Some res.
Proof.
  intros Hg s g k res H. cbn [rmatch] in H.
  apply (rmatch_no_group_len r Hg) in H.
  destruct H as (s' & (p & ->) & L & H). rewrite consumed_app in H.
  exists p, s'. split; [reflexivity|]. split; [|exact H].
  rewrite length_append in L. lia.
Qed.

Lemma rmatch_group_seq (name : bytes) (r r2 : regex) (s : bytes) (g : groups)
      (k : bytes -> groups -> option groups) (res : groups) :
  has_group r = false ->
  rmatch (Seq (Group name r) r2) s g k = Some res ->
  exists v s', s = v ++ s' /\ min_len r <= String.length v
               /\ rmatch r2 s' ((name, v) :: g) k = Some res.
Proof. intros Hg. rewrite rmatch_seq. now apply rmatch_group_len. Qed.

Lemma rmatch_space_star_seq (r : regex) (s : bytes) (g : groups)
      (k : bytes -> groups -> option groups) (res : groups) :
  rmatch (Seq (Star Space) r) s g k = Some res ->
  exists ws s', s = ws ++ s' /\ lstrip_by is_space ws = ""
                /\ rmatch r s' g k = Some res.
Proof.
  rewrite rmatch_seq, rmatch_star. apply star_space_reads.
Qed.

(** The anatomy of a line of the index shape. *)
Lemma key_line_anatomy (line : bytes) (m : groups) :
  re_match KEY_CRE line = Some m ->
  exists ws unique name columns tail,
    line = ws ++ unique ++ "KEY " ++ name ++ " (" ++ columns ++ ")" ++ tail
    /\ lstrip_by is_space ws = ""
    /\ (unique = "" \/ unique = "UNIQUE ")
    /\ 3 <= String.length name /\ 1 <= String.length columns
    /\ group m "name" = name /\ group m "columns" = columns.
Proof.
  unfold re_match, KEY_CRE. intros H.
  apply rmatch_space_star_seq in H. destruct H as (ws & s1 & -> & Hws & H).
  assert (U : exists unique s2,
             s1 = unique ++ s2 /\ (unique = "" \/ unique = "UNIQUE ")
             /\ rmatch (Lit "KEY " >>
                        Group "name" (Chr "`" >> Plus Dot >> Chr "`") >>
                        Lit " (" >> Group "columns" (Plus Dot) >> Chr ")" >>
                        Opt (Lit " USING " >> Alt (Lit "BTREE") (Lit "HASH")) >>
                        Opt (Chr ",") >> Eol) s2 [] (fun _ g => Some g)
                = Some m).
  { rewrite rmatch_seq, rmatch_opt in H.
    match type of H with
    | match ?a with _ => _ end = _ => destruct a as [res|] eqn:EU
    end.
    - injection H as ->. apply rmatch_lit in EU.
      destruct EU as (s2 & -> & EU). exists "UNIQUE ", s2. auto.
    - exists "", s1. auto. }
  clear H. destruct U as (unique & s2 & -> & Hu & H).
  apply rmatch_lit_seq in H. destruct H as (s3 & -> & H).
  apply rmatch_group_seq in H; [|reflexivity].
  destruct H as (name & s4 & -> & Ln & H).
  apply rmatch_lit_seq in H. destruct H as (s5 & -> & H).
  apply rmatch_group_seq in H; [|reflexivity].
  destruct H as (columns & s6 & -> & Lc & H).
  pose proof H as H6. rewrite rmatch_seq in H6. apply rmatch_chr in H6.
  destruct H6 as (tail & ->).
  apply rmatch_no_group in H; [|reflexivity].
  destruct H as (s7 & _ & [= <-]).
  exists ws, unique, name, columns, tail.
  cbn [min_len Plus] in Ln, Lc.
  repeat split; try reflexivity; auto; lia.
Qed.

(** The anatomy of a line of the constraint shape. *)
Lemma constraint_line_anatomy (line : bytes) (m : groups) :
  re_match CONSTRAINT_CRE line = Some m ->
  exists ws name columns tail,
    line = ws ++ "CONSTRAINT " ++ name ++ " FOREIGN KEY (" ++ columns
              ++ ") REFERENCES" ++ tail
    /\ lstrip_by is_space ws = ""
    /\ 3 <= String.length name /\ 1 <= String.length columns
    /\ group m "name" = name /\ group m "columns" = columns.
Proof.
  unfold re_match, CONSTRAINT_CRE. intros H.
  apply rmatch_space_star_seq in H. destruct H as (ws & s1 & -> & Hws & H).
  apply rmatch_lit_seq in H. destruct H as (s2 & -> & H).
  apply rmatch_group_seq in H; [|reflexivity].
  destruct H as (name & s3 & -> & Ln & H).
  apply rmatch_lit_seq in H. destruct H as (s4 & -> & H).
  apply rmatch_group_seq in H; [|reflexivity].
  destruct H as (columns & s5 & -> & Lc & H).
  apply rmatch_lit in H. destruct H as (tail & -> & [= <-]).
  exists ws, name, columns, tail.
  cbn [min_len Plus] in Ln, Lc.
  repeat split; try reflexivity; auto; lia.
Qed.

End PatternShapes.

(** ** What the clause extractors return *)

Section ExtractedClauses.
Import Re.

Lemma extract_clauses_In (cre : regex) (lines : list bytes) (e : entry) :
  In e (extract_clauses cre lines) ->
  exists line m,
    In line lines /\ re_match cre line = Some m /\ e = clause_entry m line.
Proof.
  induction lines as [|l rest IH]; [contradiction|].
  cbn [extract_clauses]. destruct (re_match cre l) as [m|] eqn:E.
  - intros [<-|H].
    + exists l, m. split; [now left | auto].
    + destruct (IH H) as (line & m' & Hin & Hm & ->).
      exists line, m'. split; [now right | auto].
  - intros H. destruct (IH H) as (line & m' & Hin & Hm & ->).
    exists line, m'. split; [now right | auto].
Qed.

Lemma nonempty_text (s : bytes) : 1 <= String.length s -> s <> "".
Proof. destruct s; cbn; [lia | discriminate]. Qed.

Lemma first_field (value : bytes) :
  1 <= String.length value ->
  exists rest, parse_columns value = hd "" (parse_columns value) :: rest.
Proof.
  intros L. pose proof (parse_columns_first_field value (nonempty_text _ L)).
  destruct (parse_columns value) as [|f rest]; [contradiction|].
  now exists rest.
Qed.

(** X7.  Every entry of [extract_indexes] comes from a line of the DDL
    that reads: whitespace, an optional [UNIQUE ], [KEY ], the name
    text, [ (], the column text, [)] and a tail.  Its name is the first
    field of the name text, which has one (the subscript [[0]] is in
    range), and its columns are the fields of the column text, of which
    there is at least one. *)
Theorem index_entry_shape (table_ddl : bytes) (e : entry) :
  In e (extract_indexes table_ddl) ->
  In (entry_line e) (splitlines true table_ddl)
  /\ entry_columns e <> []
  /\ exists ws unique name columns tail rest,
       entry_line e
       = ws ++ unique ++ "KEY " ++ name ++ " (" ++ columns ++ ")" ++ tail
       /\ lstrip_by is_space ws = ""
       /\ (unique = "" \/ unique = "UNIQUE ")
       /\ parse_columns name = entry_name e :: rest
       /\ entry_columns e = parse_columns columns.
Proof.
  intros H. apply extract_clauses_In in H.
  destruct H as (line & m & Hin & Hm & ->).
  apply key_line_anatomy in Hm.
  destruct Hm as (ws & unique & name & columns & tail
                  & E & Hws & Hu & Ln & Lc & Gn & Gc).
  unfold clause_entry, entry_line, entry_columns, entry_name. cbn [fst snd].
  rewrite Gn, Gc. split; [exact Hin|].
  split; [apply parse_columns_first_field, nonempty_text, Lc|].
  destruct (first_field name) as (rest & Hrest); [lia|].
  exists ws, unique, name, columns, tail, rest. auto.
Qed.

Lemma index_entry_shape_witness :
  let table_ddl := ddl_of Examples.prefix_indexes in
  In idx_ab2 (extract_indexes table_ddl)
  /\ In (entry_line idx_ab2) (splitlines true table_ddl)
  /\ entry_columns idx_ab2 <> [].
Proof.
  intros table_ddl.
  assert (H : In idx_ab2 (extract_indexes table_ddl)) by (vm_compute; tauto).
  split; [exact H|].
  destruct (index_entry_shape table_ddl idx_ab2 H) as (A & B & _).
  split; [exact A | exact B].
Defined.

(** X8.  Every entry of [extract_constraints] comes from a line of the
    DDL that reads: whitespace, [CONSTRAINT ], the name text,
    [ FOREIGN KEY (], the column text, [) REFERENCES] and a tail; name
    and columns are read from the two texts as for an index.  No line
    yields both an index and a constraint. *)
Theorem constraint_entry_shape (table_ddl : bytes) (e : entry) :
  In e (extract_constraints table_ddl) ->
  In (entry_line e) (splitlines true table_ddl)
  /\ entry_columns e <> []
  /\ (forall i, In i (extract_indexes table_ddl) ->
                entry_line i <> entry_line e)
  /\ exists ws name columns tail rest,
       entry_line e
       = ws ++ "CONSTRAINT " ++ name ++ " FOREIGN KEY (" ++ columns
            ++ ") REFERENCES" ++ tail
       /\ lstrip_by is_space ws = ""
       /\ parse_columns name = entry_name e :: rest
       /\ entry_columns e = parse_columns columns.
Proof.
  intros H.
  assert (HC : matches CONSTRAINT_CRE (entry_line e) = true).
  { apply (in_map entry_line) in H. rewrite extract_constraints_lines in H.
    apply filter_In in H. tauto. }
  apply extract_clauses_In in H.
  destruct H as (line & m & Hin & Hm & ->).
  apply constraint_line_anatomy in Hm.
  destruct Hm as (ws & name & columns & tail & E & Hws & Ln & Lc & Gn & Gc).
  unfold clause_entry, entry_line, entry_columns, entry_name in *.
  cbn [fst snd] in *.
  rewrite Gn, Gc. split; [exact Hin|].
  split; [apply parse_columns_first_field, nonempty_text, Lc|].
  split.
  - intros i Hi Eq. apply (in_map entry_line) in Hi.
    rewrite extract_indexes_lines in Hi. apply filter_In in Hi.
    destruct Hi as [_ HK]. apply key_line_not_constraint in HK.
    unfold entry_line in HK. rewrite Eq in HK. congruence.
  - destruct (first_field name) as (rest & Hrest); [lia|].
    exists ws, name, columns, tail, rest. auto.
Qed.

Lemma constraint_entry_shape_witness :
  let table_ddl := ddl_of Examples.prefix_indexes in
  In fk_ab (extract_constraints table_ddl)
  /\ In (entry_line fk_ab) (splitlines true table_ddl)
  /\ entry_columns fk_ab <> [].
Proof.
  intros table_ddl.
  assert (H : In fk_ab (extract_constraints table_ddl))
    by (vm_compute; tauto).
  split; [exact H|].
  destruct (constraint_entry_shape table_ddl fk_ab H) as (A & B & _).
  split; [exact A | exact B].
Defined.

End ExtractedClauses.

(** ** The table name *)

Section TableName.
Import Re.

Lemma star_dot_greedy (k : bytes -> groups -> option groups) (fuel : nat) :
  forall s g,
    String.length s <= fuel ->
    star_iter (rmatch Dot) k fuel s g = greedy_dot k s g.
Proof.
  induction fuel as [|fuel IH]; intros s g L.
  - destruct s; [reflexivity | cbn in L; lia].
  - destruct s as [|c s1]; [reflexivity|].
    cbn [star_iter rmatch greedy_dot]. cbn in L.
    destruct (Ascii.eqb c LF); [reflexivity|].
    assert (E : Nat.ltb (String.length s1) (String.length (String c s1)) = true)
      by (apply Nat.ltb_lt; cbn; lia).
    rewrite E, IH by lia. reflexivity.
Qed.

Lemma rmatch_star_dot (s : bytes) (g : groups)
      (k : bytes -> groups -> option groups) :
  rmatch (Star Dot) s g k = greedy_dot k s g.
Proof. rewrite rmatch_star. now apply star_dot_greedy. Qed.

Lemma rmatch_plus_dot (s : bytes) (g : groups)
      (k : bytes -> groups -> option groups) :
  rmatch (Plus Dot) s g k
  = match s with
    | String c s1 => if Ascii.eqb c LF then None else greedy_dot k s1 g
    | "" => None
    end.
Proof.
  unfold Plus. rewrite rmatch_seq. destruct s as [|c s1]; [reflexivity|].
  cbn [rmatch]. destruct (Ascii.eqb c LF); [reflexivity|].
  apply star_dot_greedy. lia.
Qed.

(** Nothing the search could have stopped at was acceptable when it
    fails. *)
Lemma greedy_dot_none (k : bytes -> groups -> option groups) (g : groups) :
  forall s,
    greedy_dot k s g = None ->
    forall q s'', s = q ++ s'' -> no_lf q = true -> k s'' g = None.
Proof.
  induction s as [|c s1 IH]; intros H q s'' E Hq.
  - destruct q; [|discriminate]. cbn in E. subst s''. exact H.
  - cbn [greedy_dot] in H. destruct q as [|c' q1].
    + cbn in E. subst s''.
      destruct (Ascii.eqb c LF); [exact H|].
      destruct (greedy_dot k s1 g); [discriminate | exact H].
    + cbn in E. injection E as <- ->. cbn [no_lf] in Hq.
      apply andb_prop in Hq. destruct Hq as [Hc Hq].
      apply negb_true_iff in Hc. rewrite Hc in H.
      destruct (greedy_dot k (q1 ++ s'') g) eqn:G; [discriminate|].
      now apply (IH eq_refl q1 s'').
Qed.

(** When the search succeeds it stopped after the longest acceptable
    run. *)
Lemma greedy_dot_some (k : bytes -> groups -> option groups) (g : groups)
      (res : groups) :
  forall s,
    greedy_dot k s g = Some res ->
    exists p s',
      s = p ++ s' /\ no_lf p = true /\ k s' g = Some res
      /\ forall q s'', s = q ++ s'' -> no_lf q = true ->
                       String.length p < String.length q -> k s'' g = None.
Proof.
  induction s as [|c s1 IH]; intros H.
  - exists "", "". repeat split; auto.
    intros q s'' E _ L. destruct q; [cbn in L; lia | discriminate].
  - cbn [greedy_dot] in H.
    assert (Hstop : k (String c s1) g = Some res ->
                    (forall q s'', s1 = q ++ s'' -> no_lf q = true ->
                                   k s'' g = None)
                    \/ Ascii.eqb c LF = true ->
                    exists p s',
                      String c s1 = p ++ s' /\ no_lf p = true
                      /\ k s' g = Some res
                      /\ forall q s'', String c s1 = q ++ s'' ->
                                       no_lf q = true ->
                                       String.length p < String.length q ->
                                       k s'' g = None).
    { intros Hk Hmax. exists "", (String c s1). repeat split; auto.
      intros q s'' E Hq L. destruct q as [|c' q1]; [cbn in L; lia|].
      cbn in E. injection E as <- ->. cbn [no_lf] in Hq.
      apply andb_prop in Hq. destruct Hq as [Hc Hq].
      apply negb_true_iff in Hc.
      destruct Hmax as [Hmax|Hlf]; [|congruence].
      now apply (Hmax q1 s''). }
    destruct (Ascii.eqb c LF) eqn:Ec; [apply Hstop; auto|].
    destruct (greedy_dot k s1 g) as [res1|] eqn:G.
    + injection H as ->.
      destruct (IH eq_refl) as (p & s' & E1 & Hp & Hk & Hmax). subst s1.
      exists (String c p), s'. cbn [no_lf]. rewrite Ec. repeat split; auto.
      intros q s'' E Hq L. destruct q as [|c' q1]; [cbn in L; lia|].
      cbn in E. injection E as <- E. cbn [no_lf] in Hq.
      apply andb_prop in Hq. destruct Hq as [_ Hq].
      apply (Hmax q1 s'' E Hq). cbn in L. lia.
    + apply Hstop; [exact H|]. left. now apply greedy_dot_none.
Qed.

Lemma no_break_no_lf (s : bytes) : no_break s = true -> no_lf s = true.
Proof.
  induction s as [|c s IH]; [reflexivity|]. cbn [no_break no_lf].
  intros H. apply andb_prop in H. destruct H as [Hc Hs].
  rewrite (IH Hs), andb_true_r. unfold is_break in Hc.
  apply negb_true_iff, orb_false_elim in Hc. now rewrite (proj1 Hc).
Qed.

Lemma no_lf_app (a b : bytes) : no_lf (a ++ b) = no_lf a && no_lf b.
Proof.
  induction a as [|c a IH]; cbn; [reflexivity|].
  rewrite IH. now rewrite andb_assoc.
Qed.

Lemma append_inv_head (a b c : bytes) : a ++ b = a ++ c -> b = c.
Proof. induction a as [|x a IH]; cbn; [auto|]. intros [= H]. auto. Qed.

(** A line of the shape is accepted by the pattern. *)
Lemma ident_line_matches (pre name : bytes) :
  name <> "" -> no_lf pre = true -> no_lf name = true ->
  re_match IDENT_CRE ("CREATE TABLE " ++ pre ++ "`" ++ name ++ "` (") <> None.
Proof.
  intros Hn Hpre Hname. unfold re_match, IDENT_CRE.
  set (k0 := fun (_ : bytes) (g : groups) => Some g).
  change (rmatch (Lit "CREATE TABLE " >> Star Dot >> Chr "`" >>
                  Group "name" (Plus Dot) >> Lit "` (" >> Eol)
                 ("CREATE TABLE " ++ pre ++ "`" ++ name ++ "` (") [] k0)
    with (rmatch (Star Dot >> Chr "`" >>
                  Group "name" (Plus Dot) >> Lit "` (" >> Eol)
                 (pre ++ "`" ++ name ++ "` (") [] k0).
  rewrite rmatch_seq, rmatch_star_dot. intros G.
  apply (greedy_dot_none _ _ _ G pre ("`" ++ name ++ "` (") eq_refl) in Hpre.
  destruct name as [|c name]; [contradiction|].
  cbn [no_lf] in Hname. apply andb_prop in Hname. destruct Hname as [Hc Hname].
  apply negb_true_iff in Hc.
  change (rmatch (Plus Dot) (String c (name ++ "` (")) []
            (fun s' g' =>
               rmatch (Lit "` (" >> Eol) s'
                 (("name", consumed (String c (name ++ "` (")) s') :: g') k0)
          = None) in Hpre.
  rewrite rmatch_plus_dot, Hc in Hpre.
  apply (greedy_dot_none _ _ _ Hpre name "` (" eq_refl) in Hname.
  discriminate Hname.
Qed.

(** The anatomy of a line the pattern accepts. *)
Lemma ident_line_anatomy (line : bytes) (m : groups) :
  re_match IDENT_CRE line = Some m ->
  exists pre name tail,
    line = "CREATE TABLE " ++ pre ++ "`" ++ name ++ "` (" ++ tail
    /\ (tail = "" \/ tail = nl)
    /\ name <> "" /\ group m "name" = name
    /\ forall pre' name',
         name' <> "" -> no_lf (pre' ++ name') = true ->
         line = "CREATE TABLE " ++ pre' ++ "`" ++ name' ++ "` (" ++ tail ->
         String.length pre' <= String.length pre.
Proof.
  unfold re_match, IDENT_CRE. intros H.
  apply rmatch_lit_seq in H. destruct H as (s1 & -> & H).
  rewrite rmatch_seq, rmatch_star_dot in H.
  apply greedy_dot_some in H. destruct H as (pre & s2 & -> & Hpre & H & Hmax).
  pose proof H as H2. rewrite rmatch_seq in H2. apply rmatch_chr in H2.
  destruct H2 as (s3 & ->).
  rewrite rmatch_seq in H. cbn [rmatch] in H. cbn [Ascii.eqb Bool.eqb] in H.
  change (rmatch (Group "name" (Plus Dot) >> Lit "` (" >> Eol) s3 []
                 (fun _ g => Some g) = Some m) in H.
  apply rmatch_group_seq in H; [|reflexivity].
  destruct H as (name & s4 & -> & Ln & H).
  apply rmatch_lit_seq in H. destruct H as (tail & -> & H).
  cbn [rmatch] in H.
  destruct (String.eqb_spec tail "") as [Et|Et];
    [|destruct (String.eqb_spec tail nl) as [Et'|Et']; [|discriminate]];
    cbn [orb] in H; injection H as <-.
  - exists pre, name, tail. split; [reflexivity|]. split; [now left|].
    split; [apply nonempty_text, Ln|]. split; [reflexivity|].
    intros pre' name' Hn' Hlf E.
    destruct (Nat.le_gt_cases (String.length pre') (String.length pre))
      as [L|L]; [exact L | exfalso].
    apply append_inv_head in E. rewrite no_lf_app in Hlf.
    apply andb_prop in Hlf. destruct Hlf as [Hp' Hn'lf].
    specialize (Hmax pre' _ E Hp' L). subst tail.
    destruct name' as [|c name']; [contradiction|].
    cbn [no_lf] in Hn'lf. apply andb_prop in Hn'lf.
    destruct Hn'lf as [Hc Hn'lf]. apply negb_true_iff in Hc.
    change (rmatch (Plus Dot) (String c (name' ++ "` (")) []
              (fun s' g' =>
                 rmatch (Lit "` (" >> Eol) s'
                   (("name", consumed (String c (name' ++ "` (")) s') :: g')
                   (fun _ g => Some g))
            = None) in Hmax.
    rewrite rmatch_plus_dot, Hc in Hmax.
    apply (greedy_dot_none _ _ _ Hmax name' "` (" eq_refl) in Hn'lf.
    discriminate Hn'lf.
  - exists pre, name, tail. split; [reflexivity|]. split; [now right|].
    split; [apply nonempty_text, Ln|]. split; [reflexivity|].
    intros pre' name' Hn' Hlf E.
    destruct (Nat.le_gt_cases (String.length pre') (String.length pre))
      as [L|L]; [exact L | exfalso].
    apply append_inv_head in E. rewrite no_lf_app in Hlf.
    apply andb_prop in Hlf. destruct Hlf as [Hp' Hn'lf].
    specialize (Hmax pre' _ E Hp' L). subst tail.
    destruct name' as [|c name']; [contradiction|].
    cbn [no_lf] in Hn'lf. apply andb_prop in Hn'lf.
    destruct Hn'lf as [Hc Hn'lf]. apply negb_true_iff in Hc.
    change (rmatch (Plus Dot) (String c (name' ++ "` (" ++ nl)) []
              (fun s' g' =>
                 rmatch (Lit "` (" >> Eol) s'
                   (("name", consumed (String c (name' ++ "` (" ++ nl)) s')
                      :: g')
                   (fun _ g => Some g))
            = None) in Hmax.
    rewrite rmatch_plus_dot, Hc in Hmax.
    apply (greedy_dot_none _ _ _ Hmax name' ("` (" ++ nl) eq_refl) in Hn'lf.
    discriminate Hn'lf.
Qed.

Lemma splitlines_false_no_break_aux (n : nat) :
  forall s line,
    String.length s <= n -> In line (splitlines false s) ->
    no_break line = true.
Proof.
  induction n as [|n IH]; intros s line Hn.
  - destruct s; [contradiction | cbn in Hn; lia].
  - destruct s as [|c s1]; [contradiction|].
    cbn in Hn. cbn [splitlines line_end].
    destruct (Ascii.eqb_spec c LF) as [->|HLF].
    + intros [<-|H]; [reflexivity | eapply IH; [|exact H]; lia].
    + destruct (Ascii.eqb_spec c CR) as [->|HCR].
      * destruct s1 as [|c' s2].
        -- intros [<-|[]]. reflexivity.
        -- destruct (Ascii.eqb_spec c' LF) as [->|HLF'].
           ++ intros [<-|H]; [reflexivity|].
              eapply IH; [|exact H]. cbn in Hn. lia.
           ++ intros [<-|H]; [reflexivity|].
              eapply IH; [|exact H]. lia.
      * assert (Hc : is_break c = false).
        { unfold is_break. destruct (Ascii.eqb_spec c LF); [contradiction|].
          destruct (Ascii.eqb_spec c CR); [contradiction | reflexivity]. }
        destruct (splitlines false s1) as [|l ls] eqn:E.
        -- intros [<-|[]]. cbn. now rewrite Hc.
        -- intros [<-|H].
           ++ cbn [no_break]. rewrite Hc. cbn [negb andb].
              apply (IH s1 l ltac:(lia)). rewrite E. now left.
           ++ apply (IH s1 line ltac:(lia)). rewrite E. now right.
Qed.

Lemma splitlines_false_no_break (s line : bytes) :
  In line (splitlines false s) -> no_break line = true.
Proof. apply (splitlines_false_no_break_aux (String.length s)). lia. Qed.

Lemma find_table_name_some (lines : list bytes) (name : bytes) :
  find_table_name lines = Some name ->
  exists before line after m,
    lines = (before ++ line :: after)%list
    /\ (forall l, In l before -> re_match IDENT_CRE l = None)
    /\ re_match IDENT_CRE line = Some m /\ group m "name" = name.
Proof.
  induction lines as [|l rest IH]; [discriminate|].
  cbn [find_table_name]. destruct (re_match IDENT_CRE l) as [m|] eqn:E.
  - intros [= <-]. exists [], l, rest, m. repeat split; auto.
    intros ? [].
  - intros H. destruct (IH H) as (before & line & after & m & -> & Hb & Hm & G).
    exists (l :: before), line, after, m. repeat split; auto.
    intros l' [<-|Hl']; auto.
Qed.

Lemma find_table_name_none (lines : list bytes) :
  find_table_name lines = None <->
  forall l, In l lines -> re_match IDENT_CRE l = None.
Proof.
  induction lines as [|l rest IH]; cbn [find_table_name].
  - split; [intros _ ? [] | reflexivity].
  - destruct (re_match IDENT_CRE l) as [m|] eqn:E.
    + split; [discriminate|]. intros H.
      specialize (H l (or_introl eq_refl)). congruence.
    + rewrite IH. split.
      * intros H l' [<-|Hl']; auto.
      * intros H l' Hl'. apply H. now right.
Qed.

(** On a line without line break the pattern accepts exactly the lines
    that open a table. *)
Lemma ident_line_iff (line : bytes) :
  no_break line = true ->
  re_match IDENT_CRE line = None <->
  forall pre name, ~ names_table line pre name.
Proof.
  intros Hb. split.
  - intros H pre name (Hn & E). subst line.
    apply no_break_no_lf in Hb.
    change ("CREATE TABLE " ++ pre ++ "`" ++ name ++ "` (")
      with ("CREATE TABLE " ++ (pre ++ "`" ++ name ++ "` (")) in Hb.
    rewrite no_lf_app in Hb. apply andb_prop in Hb. destruct Hb as [_ Hb].
    rewrite no_lf_app in Hb. apply andb_prop in Hb. destruct Hb as [Hp Hb].
    change ("`" ++ name ++ "` (") with (String "`" (name ++ "` (")) in Hb.
    cbn [no_lf] in Hb. apply andb_prop in Hb. destruct Hb as [_ Hb].
    rewrite no_lf_app in Hb. apply andb_prop in Hb. destruct Hb as [Hnm _].
    now apply (ident_line_matches pre name Hn Hp Hnm).
  - intros H. destruct (re_match IDENT_CRE line) as [m|] eqn:E; [|reflexivity].
    exfalso. apply ident_line_anatomy in E.
    destruct E as (pre & name & tail & -> & [->| ->] & Hn & _).
    + apply (H pre name). split; [exact Hn | reflexivity].
    + rewrite !no_break_app in Hb. do 5 (apply andb_prop in Hb as [_ Hb]).
      discriminate Hb.
Qed.

(** X9.  [extract_table_name] leaves the section and the log alone.
    The name it returns is read from the first line of the DDL that
    opens a table -- [CREATE TABLE], any text, a non-empty name between
    backticks, a blank and an opening parenthesis at the end of the
    line -- and, where that line can be read in several ways, it is the
    name that starts latest.  It raises ValueError exactly when no line
    of the DDL opens a table. *)
Theorem extract_table_name_spec (table_ddl : bytes) (w : world) :
  let lines := splitlines false table_ddl in
  fst (extract_table_name table_ddl w) = w
  /\ (forall name,
        snd (extract_table_name table_ddl w) = Return name ->
        exists before pre after,
          let line := "CREATE TABLE " ++ pre ++ "`" ++ name ++ "` (" in
          lines = (before ++ line :: after)%list
          /\ name <> ""
          /\ (forall l p n, In l before -> ~ names_table l p n)
          /\ (forall p n, names_table line p n ->
                          String.length p <= String.length pre))
  /\ (snd (extract_table_name table_ddl w)
      = Raise (ValueError ("Failed to find table name from DDL: "
                             ++ table_ddl))
      <-> forall l p n, In l lines -> ~ names_table l p n).
Proof.
  intros lines. unfold extract_table_name. fold lines.
  assert (Hnb : forall l, In l lines -> no_break l = true)
    by (intros l; apply splitlines_false_no_break).
  destruct (find_table_name lines) as [found|] eqn:F.
  - split; [reflexivity|]. split.
    + intros name [= <-].
      apply find_table_name_some in F.
      destruct F as (before & line & after & m & E & Hb & Hm & G).
      assert (Hl : no_break line = true)
        by (apply Hnb; rewrite E; apply in_or_app; right; now left).
      apply ident_line_anatomy in Hm.
      destruct Hm as (pre & name & tail & El & Ht & Hn & Gn & Hmax).
      assert (tail = "") as ->.
      { destruct Ht as [->| ->]; [reflexivity|]. subst line.
        rewrite !no_break_app in Hl. do 5 (apply andb_prop in Hl as [_ Hl]).
        discriminate Hl. }
      rewrite Gn in G. subst found. exists before, pre, after. cbv zeta.
      change ("` (" ++ "") with "` (" in El. rewrite <- El.
      split; [exact E|]. split; [exact Hn|]. split.
      * intros l p n Hin. apply ident_line_iff; [|now apply Hb].
        apply Hnb. rewrite E. apply in_or_app. now left.
      * intros p n (Hn' & E'). apply (Hmax p n Hn'); [|exact E'].
        apply no_break_no_lf in Hl. rewrite E' in Hl.
        change ("CREATE TABLE " ++ p ++ "`" ++ n ++ "` (")
          with ("CREATE TABLE " ++ (p ++ "`" ++ n ++ "` (")) in Hl.
        rewrite no_lf_app in Hl. apply andb_prop in Hl. destruct Hl as [_ Hl].
        rewrite no_lf_app in Hl. apply andb_prop in Hl. destruct Hl as [Hp Hl].
        change ("`" ++ n ++ "` (") with (String "`" (n ++ "` (")) in Hl.
        cbn [no_lf] in Hl. apply andb_prop in Hl. destruct Hl as [_ Hl].
        rewrite no_lf_app in Hl. apply andb_prop in Hl. destruct Hl as [Hnm _].
        now rewrite no_lf_app, Hp, Hnm.
    + split; [discriminate|]. intros H. exfalso.
      apply find_table_name_some in F.
      destruct F as (before & line & after & m & E & _ & Hm & _).
      assert (Hin : In line lines)
        by (rewrite E; apply in_or_app; right; now left).
      pose proof (proj2 (ident_line_iff line (Hnb _ Hin))
                        (fun p n => H line p n Hin)).
      congruence.
  - split; [reflexivity|]. split; [discriminate|].
    split; [intros _ | reflexivity].
    intros l p n Hin. apply ident_line_iff; [now apply Hnb|].
    now apply (proj1 (find_table_name_none lines) F).
Qed.

Lemma extract_table_name_spec_witness :
  let w := Examples.prefix_indexes in
  let table_ddl := ddl_of w in
  snd (extract_table_name table_ddl w) = Return "t"
  /\ exists before pre after,
       let line := "CREATE TABLE " ++ pre ++ "`t` (" in
       splitlines false table_ddl = (before ++ line :: after)%list.
Proof.
  intros w table_ddl.
  assert (H : snd (extract_table_name table_ddl w) = Return "t")
    by reflexivity.
  split; [exact H|].
  destruct (extract_table_name_spec table_ddl w) as (_ & Hname & _).
  destruct (Hname "t" H) as (before & pre & after & E & _).
  now exists before, pre, after.
Defined.

End TableName.

(** ** [format_alter_table]: the statement it writes *)

Section AlterTable.

Lemma rstrip_by_after (p : ascii -> bool) (c : ascii) (b : bytes) :
  p c = false ->
  forall a, rstrip_by p (a ++ String c b) = a ++ String c (rstrip_by p b).
Proof.
  intros Hc. induction a as [|x a IH].
  - cbn [append rstrip_by]. rewrite Hc. now destruct (rstrip_by p b).
  - cbn [append rstrip_by]. rewrite IH. now destruct a.
Qed.

Lemma concat_last (sep : bytes) (a : bytes) (l : list bytes) (x : bytes) :
  String.concat sep (a :: l ++ [x])
  = a ++ sep ++ String.concat sep (l ++ [x]).
Proof. now destruct l. Qed.

(** Whatever the clauses, the last one follows a blank. *)
Lemma clauses_last (l : list bytes) :
  forall pfx, exists q, forall x,
    pfx ++ String " " (join_with (nl ++ "  ADD ") (l ++ [x]))
    = q ++ String " " x.
Proof.
  induction l as [|a l IH]; intros pfx.
  - exists pfx. reflexivity.
  - destruct (IH (pfx ++ String " " a ++ nl ++ "  ADD")) as (q & Hq).
    exists q. intros x. rewrite <- Hq. unfold join_with.
    change ((a :: l) ++ [x])%list with (a :: l ++ [x])%list.
    rewrite concat_last.
    change (String " " (a ++ (nl ++ "  ADD ") ++ String.concat (nl ++ "  ADD ") (l ++ [x])))
      with (String " " a ++ (nl ++ "  ADD ") ++ String.concat (nl ++ "  ADD ") (l ++ [x])).
    change (nl ++ "  ADD ") with ((nl ++ "  ADD") ++ " ") at 1.
    rewrite !append_assoc. reflexivity.
Qed.

Lemma alter_template_last (name : bytes) (l : list bytes) :
  exists q, forall x,
    join_with nl (alter_template name (l ++ [x])) = q ++ String " " x.
Proof.
  destruct (clauses_last l
              ("--" ++ nl ++ "-- InnoDB Fast Index Creation (generated by dbsake)"
                 ++ nl ++ "--" ++ nl ++ "" ++ nl
                 ++ ("ALTER TABLE `" ++ name ++ "`") ++ nl ++ "  ADD"))
    as (q & Hq).
  exists q. intros x. rewrite <- Hq. unfold alter_template, join_with.
  cbn [String.concat].
  change ("  ADD " ++ String.concat (nl ++ "  ADD ") (l ++ [x]))
    with ("  ADD" ++ String " " (String.concat (nl ++ "  ADD ") (l ++ [x]))).
  rewrite !append_assoc. reflexivity.
Qed.

(** X10.  With a table name and at least one deferred clause,
    [format_alter_table] returns the banner, [ALTER TABLE] with the name
    and one [ADD] per clause, each clause being its line stripped of
    surrounding whitespace; the commas at the end of the last clause are
    dropped and a semicolon closes the statement.  The clauses before
    the last keep what they end in.  With no clause the result is
    empty. *)
Theorem format_alter_table_statement (table_ddl name : bytes)
        (init : list entry) (last : entry) (w : world) :
  let clause := fun e => strip (entry_line e) in
  find_table_name (splitlines false table_ddl) = Some name ->
  format_alter_table table_ddl (init ++ [last]) w
  = (w, Return
          (join_with nl
             (alter_template name
                (map clause init ++ [rstrip_commas (clause last)]))
           ++ ";"))
  /\ format_alter_table table_ddl [] w = (w, Return "").
Proof.
  intros clause Hname. split.
  - rewrite (format_alter_table_named _ name) by exact Hname.
    unfold alter_table_text. fold clause. rewrite map_app. cbn [map].
    destruct (alter_template_last name (map clause init)) as (q & Hq).
    rewrite (Hq (rstrip_commas (clause last))).
    destruct (map clause init ++ [clause last])%list as [|c0 cs] eqn:E;
      [destruct (map clause init); discriminate E|].
    rewrite <- E, Hq. unfold rstrip_commas at 1.
    rewrite rstrip_by_after by reflexivity. reflexivity.
  - now rewrite (format_alter_table_named _ name) by exact Hname.
Qed.

Lemma format_alter_table_statement_witness :
  let table_ddl := ddl_of Examples.prefix_indexes in
  find_table_name (splitlines false table_ddl) = Some "t"
  /\ format_alter_table table_ddl [idx_a; idx_ab2] Examples.prefix_indexes
     = (Examples.prefix_indexes,
        Return ("--" ++ nl
                ++ "-- InnoDB Fast Index Creation (generated by dbsake)" ++ nl
                ++ "--" ++ nl ++ nl
                ++ "ALTER TABLE `t`" ++ nl
                ++ "  ADD KEY `idx_a` (`a`)," ++ nl
                ++ "  ADD UNIQUE KEY `idx_ab2` (`a`,`b`) USING BTREE;")).
Proof.
  intros table_ddl.
  assert (H : find_table_name (splitlines false table_ddl) = Some "t")
    by reflexivity.
  split; [exact H|].
  destruct (format_alter_table_statement table_ddl "t" [idx_a] idx_ab2
              Examples.prefix_indexes H) as [E _].
  exact E.
Defined.

End AlterTable.

(** ** The rewrite of the section: where the patched statement goes *)

Section RewriteInPlace.

Lemma join_app (a b : list bytes) : join (a ++ b) = join a ++ join b.
Proof.
  induction a as [|l a IH]; [reflexivity|].
  change ((l :: a) ++ b)%list with (l :: (a ++ b))%list.
  now rewrite !join_cons, IH, append_assoc.
Qed.

Lemma before_and_from (p : bytes -> bool) (lines : list bytes) :
  lines = (before_first p lines ++ drop_until p lines)%list.
Proof.
  induction lines as [|l rest IH]; [reflexivity|].
  cbn [before_first drop_until]. destruct (p l); [reflexivity|].
  cbn [app]. now rewrite <- IH.
Qed.

Lemma through_and_after (p : bytes -> bool) (lines : list bytes) :
  lines = (through_first p lines ++ after_first p lines)%list.
Proof.
  induction lines as [|l rest IH]; [reflexivity|].
  cbn [through_first after_first]. destruct (p l); [reflexivity|].
  cbn [app]. now rewrite <- IH.
Qed.

Lemma prefix_empty (s : bytes) : String.prefix "" s = true.
Proof. now destruct s. Qed.

Lemma prefix_shorter (p x : bytes) :
  forall s, String.prefix (p ++ x) s = true -> String.prefix p s = true.
Proof.
  induction p as [|c p IH]; intros s H; [apply prefix_empty|].
  cbn [append] in H. apply prefix_cons in H. destruct H as (s' & -> & H).
  cbn. destruct (Ascii.ascii_dec c c); [now apply IH | contradiction].
Qed.

Lemma prefix_split (p : bytes) :
  forall s, String.prefix p s = true -> exists x, s = p ++ x.
Proof.
  induction p as [|c p IH]; intros s H; [now exists s|].
  apply prefix_cons in H. destruct H as (s' & -> & H).
  destruct (IH s' H) as (x & ->). now exists x.
Qed.

Lemma prefix_longer (k : bytes) :
  forall m y, String.prefix k m = true -> String.prefix k (m ++ y) = true.
Proof.
  induction k as [|c k IH]; intros m y H; [apply prefix_empty|].
  apply prefix_cons in H. destruct H as (s' & -> & H).
  cbn. destruct (Ascii.ascii_dec c c); [now apply IH | contradiction].
Qed.

(** A text without line feed that starts before a line feed ends
    before it. *)
Lemma prefix_before_lf (k : bytes) :
  no_lf k = true ->
  forall m x, String.prefix k (m ++ String LF x) = true ->
              String.prefix k m = true.
Proof.
  induction k as [|c k IH]; intros Hk m x H; [apply prefix_empty|].
  cbn [no_lf] in Hk. apply andb_prop in Hk. destruct Hk as [Hc Hk].
  apply negb_true_iff in Hc.
  apply prefix_cons in H. destruct H as (s' & E & H).
  destruct m as [|c' m]; cbn in E; injection E as E1 E2.
  - subst c. now rewrite Ascii.eqb_refl in Hc.
  - subst c' s'. cbn.
    destruct (Ascii.ascii_dec c c); [now apply (IH Hk m x) | contradiction].
Qed.

Lemma contains_suffix (k m : bytes) :
  String.prefix k m = true -> forall a, contains k (a ++ m) = true.
Proof.
  intros H. induction a as [|x a IH].
  - cbn [append]. destruct m; cbn [contains]; now rewrite H.
  - cbn [append contains].
    destruct (String.prefix k (String x (a ++ m))); [reflexivity | exact IH].
Qed.

Lemma append_split (a1 a2 : bytes) :
  forall l r,
    a1 ++ a2 = l ++ r ->
    (exists m, l = a1 ++ m /\ a2 = m ++ r)
    \/ (exists m, a1 = l ++ m /\ r = m ++ a2).
Proof.
  induction a1 as [|c a1 IH]; intros l r H.
  - left. exists l. auto.
  - destruct l as [|c' l].
    + right. exists (String c a1). auto.
    + cbn in H. injection H as <- H. destruct (IH l r H) as [(m & -> & ->)|(m & -> & ->)].
      * left. now exists m.
      * right. now exists m.
Qed.

Lemma endswith_spec (p : bytes) :
  forall s, endswith s p = true -> exists b, s = b ++ p.
Proof.
  induction s as [|c s IH]; cbn [endswith].
  - destruct (String.eqb_spec "" p) as [<-|]; [|discriminate]. now exists "".
  - destruct (String.eqb_spec (String c s) p) as [<-|].
    + now exists "".
    + intros H. destruct (IH H) as (b & ->). now exists (String c b).
Qed.

(** A non-empty end of a line that ends with a line feed ends with
    it. *)
Lemma end_of_terminated (a m b : bytes) :
  a ++ m = b ++ nl -> m <> "" -> exists m', m = m' ++ nl.
Proof.
  intros E Hm. apply append_split in E.
  destruct E as [(m0 & _ & ->)|(m0 & _ & E)]; [now exists m0|].
  destruct m0 as [|c m0]; [exists ""; now rewrite E|].
  cbn in E. injection E as _ E.
  destruct m0; [|discriminate]. cbn in E. now subst m.
Qed.

Lemma no_create_text_before (ls : list bytes) :
  (forall l, In l ls ->
             contains "CREATE TABLE" l = false /\ endswith l nl = true) ->
  forall a1 a2 r,
    join ls = a1 ++ a2 -> a2 <> "" ->
    String.prefix "CREATE TABLE" (a2 ++ r) = false.
Proof.
  induction ls as [|l ls IH]; intros Hls a1 a2 r E Ha2.
  - destruct a1, a2; try discriminate. contradiction.
  - rewrite join_cons in E. symmetry in E. apply append_split in E.
    assert (Hls' : forall l', In l' ls ->
                              contains "CREATE TABLE" l' = false
                              /\ endswith l' nl = true)
      by (intros l' Hl'; apply Hls; now right).
    destruct E as [(m & El & ->)|(m & -> & E)].
    + destruct (Hls l (or_introl eq_refl)) as [Hc He].
      destruct m as [|c m].
      { apply (IH Hls' "" (join ls) r eq_refl Ha2). }
      apply endswith_spec in He. destruct He as (b & Eb).
      pose proof El as El'. rewrite Eb in El'. symmetry in El'.
      apply end_of_terminated in El'; [|discriminate].
      destruct El' as (m' & Em). rewrite Em, !append_assoc.
      destruct (String.prefix "CREATE TABLE" (m' ++ nl ++ join ls ++ r))
        eqn:P; [exfalso | reflexivity].
      apply (prefix_before_lf "CREATE TABLE" eq_refl) in P.
      apply (prefix_longer _ _ nl) in P. rewrite <- Em in P.
      pose proof (contains_suffix _ _ P a1) as P'.
      rewrite <- El in P'. congruence.
    + now apply (IH Hls' m a2 r).
Qed.

Lemma replace_go_before (old new rest : bytes) :
  forall a,
    (forall a1 a2, a = a1 ++ a2 -> a2 <> "" ->
                   String.prefix old (a2 ++ rest) = false) ->
    replace_go old new 0 (a ++ rest) = a ++ replace_go old new 0 rest.
Proof.
  induction a as [|c a IH]; intros H; [reflexivity|].
  cbn [append replace_go].
  change (String c (a ++ rest)) with (String c a ++ rest).
  rewrite (H "" (String c a) eq_refl) by discriminate.
  rewrite IH; [reflexivity|].
  intros a1 a2 -> Ha2. now apply (H (String c a1) a2).
Qed.

Lemma replace_go_skip (old new b : bytes) :
  forall a,
    replace_go old new (String.length a) (a ++ b) = replace_go old new 0 b.
Proof. induction a as [|c a IH]; [reflexivity | exact IH]. Qed.

(** The first occurrence, when there is none further to the left. *)
Lemma replace_first (old new a b : bytes) :
  old <> "" ->
  (forall a1 a2, a = a1 ++ a2 -> a2 <> "" ->
                 String.prefix old (a2 ++ old ++ b) = false) ->
  replace (a ++ old ++ b) old new = a ++ new ++ replace b old new.
Proof.
  intros Hold H. destruct old as [|c o]; [contradiction|].
  unfold replace. rewrite replace_go_before by exact H. f_equal.
  cbn [append replace_go].
  change (String c (o ++ b)) with (String c o ++ b).
  rewrite prefix_append. f_equal.
  replace (String.length (String c o) - 1) with (String.length o)
    by (cbn [String.length]; lia).
  apply replace_go_skip.
Qed.

(** The section text: what precedes the statement, the statement, what
    follows it. *)
Lemma section_text_parts (lines : list bytes) :
  join lines
  = join (before_first is_create lines) ++ extract_create_table lines
    ++ join (after_first is_terminator (drop_until is_create lines)).
Proof.
  unfold extract_create_table. rewrite extract_loop_spec.
  rewrite (before_and_from is_create lines) at 1.
  rewrite (through_and_after is_terminator (drop_until is_create lines)) at 1.
  now rewrite !join_app.
Qed.

Lemma statement_opening (lines : list bytes) :
  extract_create_table lines <> "" ->
  exists x, extract_create_table lines = "CREATE TABLE" ++ x.
Proof.
  unfold extract_create_table. rewrite extract_loop_spec.
  destruct (drop_until is_create lines) as [|l rest] eqn:D; [contradiction|].
  intros _.
  assert (Hl : is_create l = true).
  { destruct (existsb is_create lines) eqn:Ex.
    - destruct (drop_until_some _ _ Ex) as (l' & rest' & D' & Hl').
      rewrite D in D'. now injection D' as -> _.
    - rewrite (drop_until_none _ _ Ex) in D. discriminate. }
  cbn [through_first]. unfold is_terminator. rewrite Hl. cbn [negb andb].
  rewrite join_cons. unfold is_create, startswith in Hl.
  apply prefix_split in Hl. destruct Hl as (y & ->).
  rewrite append_assoc. eauto.
Qed.

(** The statement occurs nowhere further to the left. *)
Lemma no_earlier_statement (lines : list bytes) (r : bytes) :
  extract_create_table lines <> "" ->
  (forall l, In l (before_first is_create lines) ->
             contains "CREATE TABLE" l = false /\ endswith l nl = true) ->
  forall a1 a2,
    join (before_first is_create lines) = a1 ++ a2 -> a2 <> "" ->
    String.prefix (extract_create_table lines) (a2 ++ r) = false.
Proof.
  intros Hne Hbefore a1 a2 Ea Ha2.
  destruct (String.prefix (extract_create_table lines) (a2 ++ r)) eqn:P;
    [exfalso | reflexivity].
  destruct (statement_opening lines Hne) as (x & Ex). rewrite Ex in P.
  apply prefix_shorter in P.
  now rewrite (no_create_text_before _ Hbefore a1 a2 _ Ea Ha2) in P.
Qed.

(** X11.  The section text is the lines before the first
    [CREATE TABLE] line, the extracted statement, and the lines after
    it.  When each of the earlier lines ends with a line feed and holds
    no [CREATE TABLE], the replacement leaves them as they are and puts
    the new text where the statement was; any further copy of the
    statement in the later lines is replaced as well. *)
Theorem rewrite_in_place (lines : list bytes) (new : bytes) :
  let table_ddl := extract_create_table lines in
  let before := before_first is_create lines in
  let after := after_first is_terminator (drop_until is_create lines) in
  table_ddl <> "" ->
  (forall l, In l before ->
             contains "CREATE TABLE" l = false /\ endswith l nl = true) ->
  join lines = join before ++ table_ddl ++ join after
  /\ replace (join lines) table_ddl new
     = join before ++ new ++ replace (join after) table_ddl new.
Proof.
  intros table_ddl before after Hne Hbefore.
  pose proof (section_text_parts lines) as E.
  fold table_ddl before after in E. split; [exact E|].
  rewrite E. apply replace_first; [exact Hne|].
  intros a1 a2 Ea Ha2.
  now apply (no_earlier_statement lines _ Hne Hbefore a1 a2).
Qed.

Lemma rewrite_in_place_witness :
  let lines := iterable (sec Examples.unquoted_name) in
  let table_ddl := extract_create_table lines in
  before_first is_create lines = ["DROP TABLE IF EXISTS t;" ++ nl]
  /\ replace (join lines) table_ddl "" = "DROP TABLE IF EXISTS t;" ++ nl.
Proof.
  intros lines table_ddl. split; [reflexivity|].
  destruct (rewrite_in_place lines "") as [_ E].
  - discriminate.
  - intros l [<-|[]]. split; reflexivity.
  - fold table_ddl in E. rewrite E. reflexivity.
Defined.

(** *** The lines of the rewritten section *)

Lemma splitlines_terminated (rest : bytes) :
  forall body,
    no_break body = true ->
    splitlines true (body ++ nl ++ rest)
    = (body ++ nl) :: splitlines true rest.
Proof.
  induction body as [|c body IH]; intros H; [reflexivity|].
  cbn [no_break] in H. apply andb_prop in H. destruct H as [Hc H].
  apply negb_true_iff in Hc. unfold is_break in Hc.
  apply orb_false_elim in Hc. destruct Hc as [HLF HCR].
  cbn [append splitlines]. rewrite HLF, HCR, (IH H). reflexivity.
Qed.

(** Lines that are terminated are the lines of their concatenation. *)
Lemma splitlines_join (lines : list bytes) :
  Forall terminated lines -> splitlines true (join lines) = lines.
Proof.
  induction 1 as [|l ls (body & -> & Hb) _ IH]; [reflexivity|].
  now rewrite join_cons, append_assoc, splitlines_terminated, IH.
Qed.

Lemma endswith_append (p : bytes) : forall a, endswith (a ++ p) p = true.
Proof.
  induction a as [|c a IH].
  - destruct p; cbn [append endswith]; now rewrite String.eqb_refl.
  - cbn [append endswith]. rewrite IH.
    now destruct (String.eqb (String c (a ++ p)) p).
Qed.

Lemma replace_absent (old new : bytes) :
  forall s, contains old s = false -> replace s old new = s.
Proof.
  destruct old as [|c o]; [intros s H; now destruct s|].
  unfold replace. induction s as [|x s IH]; [reflexivity|].
  cbn [contains replace_go].
  destruct (String.prefix (String c o) (String x s)); [discriminate|].
  intros H. now rewrite (IH H).
Qed.

Lemma rstrip_by_drop (p : ascii -> bool) (c : ascii) :
  p c = true ->
  forall a, rstrip_by p (a ++ String c "") = rstrip_by p a.
Proof.
  intros Hc. induction a as [|x a IH]; cbn [append rstrip_by].
  - now rewrite Hc.
  - now rewrite IH.
Qed.

Lemma no_break_rstrip (p : ascii -> bool) :
  forall s, no_break s = true -> no_break (rstrip_by p s) = true.
Proof.
  induction s as [|c s IH]; [reflexivity|]. cbn [no_break rstrip_by].
  intros H. apply andb_prop in H. destruct H as [Hc Hs].
  specialize (IH Hs). destruct (rstrip_by p s) as [|c' r].
  - destruct (p c); [reflexivity|]. cbn. now rewrite Hc.
  - cbn [no_break] in *. now rewrite Hc, IH.
Qed.

Lemma strip_trailing_comma_terminated (line : bytes) :
  terminated line -> terminated (strip_trailing_comma line).
Proof.
  intros (body & -> & Hb). unfold strip_trailing_comma, rstrip, rstrip_commas.
  eexists. split; [reflexivity|].
  unfold nl. rewrite rstrip_by_drop by reflexivity.
  now apply no_break_rstrip, no_break_rstrip.
Qed.

Lemma format_create_table_loop_terminated (deferred_lines : list bytes) :
  forall lines result,
    Forall terminated result -> Forall terminated lines ->
    Forall terminated (format_create_table_loop deferred_lines result lines).
Proof.
  induction lines as [|line rest IH]; intros result Hr Hl; [exact Hr|].
  inversion_clear Hl as [|? ? Hline Hrest].
  cbn [format_create_table_loop]. apply IH; [|exact Hrest].
  assert (H1 : Forall terminated
                 match result with
                 | last :: before =>
                     if startswith line ")"
                     then strip_trailing_comma last :: before
                     else result
                 | [] => result
                 end).
  { destruct result as [|last before]; [exact Hr|].
    destruct (startswith line ")"); [|exact Hr].
    inversion_clear Hr as [|? ? Hlast Hbefore].
    constructor; [now apply strip_trailing_comma_terminated | exact Hbefore]. }
  destruct (mem_line line deferred_lines); [exact H1|].
  now constructor.
Qed.

(** X12.  In a section whose lines all end with a line feed, whose
    lines before the statement hold no [CREATE TABLE] and whose lines
    after it hold no second copy of it, the rewrite replaces the lines
    of the statement by those of the patched statement and keeps every
    other line, in place. *)
Theorem rewritten_lines (s : section) (deferred : list entry) :
  let lines := iterable s in
  let table_ddl := extract_create_table lines in
  let before := before_first is_create lines in
  let after := after_first is_terminator (drop_until is_create lines) in
  table_ddl <> "" ->
  Forall terminated lines ->
  (forall l, In l before -> contains "CREATE TABLE" l = false) ->
  contains table_ddl (join after) = false ->
  splitlines true table_ddl
  = through_first is_terminator (drop_until is_create lines)
  /\ iterable (rewritten s table_ddl deferred)
     = (before ++ format_create_table_lines table_ddl deferred ++ after)%list.
Proof.
  intros lines table_ddl before after Hne Hlines Hbefore Hafter.
  set (run := through_first is_terminator (drop_until is_create lines)).
  assert (E : lines = (before ++ run ++ after)%list).
  { unfold before, run, after.
    rewrite <- through_and_after. apply before_and_from. }
  assert (Hparts : Forall terminated before /\ Forall terminated run
                   /\ Forall terminated after).
  { rewrite E in Hlines. apply Forall_app in Hlines.
    destruct Hlines as [H1 H2]. apply Forall_app in H2. tauto. }
  destruct Hparts as (Tb & Tr & Ta).
  assert (Hddl : splitlines true table_ddl = run).
  { unfold table_ddl, extract_create_table. rewrite extract_loop_spec.
    now apply splitlines_join. }
  split; [exact Hddl|].
  unfold rewritten. cbn [iterable]. fold lines table_ddl.
  pose proof (section_text_parts lines) as Et.
  fold table_ddl before after in Et. rewrite Et.
  rewrite replace_first; [|exact Hne|].
  2:{ intros a1 a2 Ea Ha2.
      apply (no_earlier_statement lines _ Hne) with (a1 := a1);
        [|exact Ea|exact Ha2].
      intros l Hl. split; [now apply Hbefore|].
      rewrite Forall_forall in Tb. destruct (Tb l Hl) as (body & -> & _).
      apply endswith_append. }
  rewrite (replace_absent _ _ _ Hafter).
  unfold format_create_table. rewrite <- !join_app.
  apply splitlines_join. apply Forall_app. split; [exact Tb|].
  apply Forall_app. split; [|exact Ta].
  unfold format_create_table_lines. apply Forall_rev.
  apply format_create_table_loop_terminated; [constructor|].
  now rewrite Hddl.
Qed.

Lemma rewritten_lines_witness :
  let s := sec Examples.not_innodb in
  let table_ddl := extract_create_table (iterable s) in
  iterable (rewritten s table_ddl [(EmptyString, [], " KEY `idx_a` (`a`)" ++ nl)])
  = [ "CREATE TABLE `t` (" ++ nl;
      " `a` INT" ++ nl;
      ") ENGINE=MyISAM;" ++ nl;
      "INSERT INTO `t` VALUES (1);" ++ nl ].
Proof.
  intros s table_ddl.
  destruct (rewritten_lines s [(EmptyString, [], " KEY `idx_a` (`a`)" ++ nl)])
    as [_ E].
  - discriminate.
  - repeat constructor; eexists; (split; [reflexivity | reflexivity]).
  - intros l [].
  - reflexivity.
  - fold table_ddl in E. rewrite E. reflexivity.
Defined.

End RewriteInPlace.

(** ** One index found for two constraints *)

Section SharedIndex.




End SharedIndex.

(** ** Lines the clause patterns recognise *)

Section RecognisedLines.
Import Re Csv.





Lemma same_length_split (p q : bytes) :
  forall s t, p ++ s = q ++ t -> String.length p = String.length q ->
              p = q /\ s = t.
Proof.
  revert q. induction p as [|c p IH]; intros [|c' q] s t E L;
    try (cbn in L; discriminate).
  - auto.
  - cbn in E, L. injection E as <- E.
    destruct (IH q s t E) as [-> ->]; [lia | auto].
Qed.









(** *** Index lines *)




(** *** Constraint lines *)



(** *** From the line to the entry *)












End RecognisedLines.

(** ** [parse_columns]: what follows a quoted name *)

Section SuffixedColumns.
Import Csv.







End SuffixedColumns.

(** ** The set of preserved indexes: the order of its iteration *)

Section SetIteration.

(** X4.  The loop over the set of preserved indexes gives the same
    result -- the list to defer, or the ValueError -- in whatever order
    the set is iterated; only the order of the warnings differs. *)
Theorem iteration_order_irrelevant (ps ps' : list preserved)
        (indexes : list entry) (w : world) :
  Permutation ps ps' ->
  snd (remove_loop ps indexes w) = snd (remove_loop ps' indexes w)
  /\ (forall deferred,
        snd (remove_loop ps indexes w) = Return deferred ->
        log (fst (remove_loop ps' indexes w))
        = (log w ++ map (warning (sec w)) ps')%list
        /\ Permutation (log (fst (remove_loop ps indexes w)))
                       (log (fst (remove_loop ps' indexes w)))).
Proof.
  intros HP.
  pose proof (remove_loop_remove_all ps indexes w) as H.
  pose proof (remove_loop_remove_all ps' indexes w) as H'.
  rewrite <- (remove_all_permutation _ _ (Permutation_map preserved_index HP))
    in H'.
  destruct (remove_all (map preserved_index ps) indexes) as [d|].
  - rewrite H, H'. cbn [fst snd log]. split; [reflexivity|].
    intros _ _. split; [reflexivity|].
    apply Permutation_app_head. now apply Permutation_map.
  - destruct H as (lg & ->), H' as (lg' & ->). cbn [snd].
    split; [reflexivity | discriminate].
Qed.

Lemma iteration_order_irrelevant_witness :
  let w := Examples.shared_index in
  let indexes := [idx_a; idx_ab] in
  let p1 := preserved_for idx_a fk_a in
  let p2 := preserved_for idx_ab fk_ab in
  snd (remove_loop [p1; p2] indexes w) = Return []
  /\ snd (remove_loop [p2; p1] indexes w) = Return [].
Proof.
  intros w indexes p1 p2.
  assert (R : snd (remove_loop [p1; p2] indexes w) = Return [])
    by reflexivity.
  split; [exact R|].
  destruct (iteration_order_irrelevant [p1; p2] [p2; p1] indexes w
              (perm_swap p2 p1 [])) as [E _].
  now rewrite <- E.
Defined.

End SetIteration.

(** ** The further properties on the example sections *)

Section FurtherExamples.

Lemma removal_conserves_indexes_witness :
  let w := Examples.prefix_indexes in
  let indexes := extract_indexes (ddl_of w) in
  let preserved_indexes :=
    preserve_loop indexes (extract_constraints (ddl_of w)) [] in
  let deferred :=
    filter (fun e => negb (String.eqb (entry_name e) "idx_ab2")) indexes in
  snd (remove_loop preserved_indexes indexes w) = Return deferred
  /\ length indexes = length preserved_indexes + length deferred.
Proof.
  intros w indexes preserved_indexes deferred.
  assert (R : remove_loop preserved_indexes indexes w
              = (fst (remove_loop preserved_indexes indexes w),
                 Return deferred)) by reflexivity.
  split; [now rewrite R|].
  destruct (removal_conserves_indexes preserved_indexes indexes deferred w _ R)
    as (_ & L & _).
  exact L.
Defined.


End FurtherExamples.
